(** * Expo push proxy (queued variant): model and verification

    Shallow embedding of [expo_push_proxy.js], the variant that queues
    messages and sends them sequentially with configurable spacing.

    - JSON request data is an inductive type; a JS object is an
      association list in key order; JS strings are strings, their
      [length] and [substring] counted in characters.
    - A request carries [req.url] and the Host header as received, and its
      body as the Buffers of the 'data' events, which are bytes. Each
      Buffer is decoded on its own when it is appended to [data]; the
      decoded text is kept in UTF-8 and [js_length] counts its UTF-16 code
      units, as [data.length] does.
    - [new URL], [JSON.parse] and the decoding of a Buffer are builtins of
      the platform and parameters of the model. A request on which the
      handler throws outside its [try] ends the process: the run has no
      next state.
    - Code that can throw runs in a small console-writer / exception monad.
    - The event loop is an executable labelled step function over the three
      module-level variables [queue], [sending], [lastSent], the clock, and
      the set of suspended [processQueue] activations. The clock never runs
      backwards and a timer never fires before it is due. *)

From Stdlib Require Import ZArith List String Bool Lia DecimalString.
Import ListNotations.
Open Scope string_scope.
Open Scope list_scope.
Open Scope Z_scope.
#[local] Set Warnings "-register-all".

(** ** JSON values as seen by the program *)

Module Json.

(** The result of [JSON.parse]. Numbers are only ever tested for
    truthiness by this program, so integers stand for them. *)
Inductive json : Type :=
| JNull
| JBool (b : bool)
| JNum (n : Z)
| JStr (s : string)
| JArr (l : list json)
| JObj (fields : list (string * json)).

(** [Boolean(v)] for a JSON value: [null], [false], [0] and the empty
    string are falsy, every array and object is truthy. *)
Definition truthy (v : json) : bool :=
  match v with
  | JNull => false
  | JBool b => b
  | JNum n => negb (n =? 0)
  | JStr s => negb (String.eqb s "")
  | JArr _ => true
  | JObj _ => true
  end.

Fixpoint assoc (k : string) (fs : list (string * json)) : option json :=
  match fs with
  | [] => None
  | (k', v) :: fs' => if String.eqb k k' then Some v else assoc k fs'
  end.

(** Writing property [k] of an object: an existing key keeps its place,
    a new key goes last. *)
Fixpoint assoc_set (k : string) (v : json) (fs : list (string * json))
  : list (string * json) :=
  match fs with
  | [] => [(k, v)]
  | (k', v') :: fs' =>
      if String.eqb k k' then (k, v) :: fs' else (k', v') :: assoc_set k v fs'
  end.

(** [{...o, k: v}] *)
Definition spread_set (o : json) (k : string) (v : json) : json :=
  match o with
  | JObj fs => JObj (assoc_set k v fs)
  | _ => JObj [(k, v)]
  end.

(** [x || d] where [x] may be [undefined] ([None]). *)
Definition or_default (x : option json) (d : json) : json :=
  match x with
  | Some v => if truthy v then v else d
  | None => d
  end.

(** [!x] where [x] may be [undefined]. *)
Definition falsy (x : option json) : bool :=
  match x with
  | Some v => negb (truthy v)
  | None => true
  end.

End Json.
Import Json.

(** ** Exceptions and the console *)

Inductive exn : Type :=
| TypeError (msg : string)
| SyntaxError (msg : string)
| Error (msg : string).

Definition message (e : exn) : string :=
  match e with
  | TypeError m | SyntaxError m | Error m => m
  end.

(** One record per [console.log] / [console.warn] / [console.error] call;
    the fields are the values interpolated into the message. *)
Inductive logline : Type :=
| LogResponse (status : Z) (prefix : string)
| WarnBackoff (status : Z)
| LogBody (text : string)
| ErrSendFailed (prefix : string) (msg : string)
| ErrQueue (e : exn)
| ErrHandle (e : exn).

(** A computation writes console lines and either returns or throws. *)
Definition M (A : Type) : Type := list logline * (exn + A).

Definition ret {A} (a : A) : M A := ([], inr a).
Definition throw {A} (e : exn) : M A := ([], inl e).
Definition console (l : logline) : M unit := ([l], inr tt).

Definition bind {A B} (m : M A) (k : A -> M B) : M B :=
  match m with
  | (out, inl e) => (out, inl e)
  | (out, inr a) => let '(out', r) := k a in (out ++ out', r)
  end.

(** [try { m } catch (err) { h err }] *)
Definition try_catch {A} (m : M A) (h : exn -> M A) : M A :=
  match m with
  | (out, inl e) => let '(out', r) := h e in (out ++ out', r)
  | (out, inr a) => (out, inr a)
  end.

Definition when (b : bool) (m : M unit) : M unit := if b then m else ret tt.

Notation "x <- m ;; k" := (bind m (fun x => k))
  (at level 61, m at next level, right associativity).
Notation "m ;;; k" := (bind m (fun _ => k))
  (at level 61, right associativity).

Definition outcome {A} (m : M A) : exn + A := snd m.
Definition output {A} (m : M A) : list logline := fst m.

(** ** [normalizeTokens] *)

Definition normalizeTokens (to : option json) : list json :=
  match to with
  | None => []
  | Some v =>
      if negb (truthy v) then []
      else match v with
           | JArr l => filter truthy l
           | _ => [v]
           end
  end.

(** ** [sendToExpo] *)

(** What the awaited [fetch] and [res.text()] produce: a status with the
    response text (or the fault of reading it), or a rejected [fetch]. *)
Inductive fetch_result : Type :=
| Responded (status : Z) (text : exn + string)
| FetchFailed (err : exn).

(** [token.substring(0, 20)]: only a string has the method; on any other
    JSON value the property is not a function and the call throws. *)
Definition token_substring (token : json) : M string :=
  match token with
  | JStr s => ret (substring 0 20 s)
  | _ => throw (TypeError "token.substring is not a function")
  end.

(** The body handed to [fetch], before [JSON.stringify]. *)
Definition expo_body (token payload : json) : json :=
  spread_set payload "to" token.

Definition await_fetch (net : fetch_result) : M (Z * string) :=
  match net with
  | Responded status (inr text) => ret (status, text)
  | Responded _ (inl e) => throw e
  | FetchFailed e => throw e
  end.

Definition sendToExpo (token payload : json) (net : fetch_result) : M unit :=
  try_catch
    (r <- await_fetch net ;;
     let '(status, text) := r in
     p <- token_substring token ;;
     console (LogResponse status p) ;;;
     when ((status >=? 500) || (status =? 429)) (console (WarnBackoff status)) ;;;
     when (negb (String.eqb text "") && (Nat.ltb (String.length text) 512))
       (console (LogBody text)))
    (fun err =>
       p <- token_substring token ;;
       console (ErrSendFailed p (message err))).

(** ** The queue state *)

Record QueueItem : Type := { token : json; payload : json }.

(** A [processQueue] call that is suspended at one of its three [await]s. *)
Inductive activation : Type :=
| AwaitInterval (it : QueueItem) (due : Z)  (* await delay(waitMs) *)
| AwaitSend (it : QueueItem)                (* await sendToExpo(token, payload) *)
| AwaitStagger (due : Z).                   (* await delay(STAGGER_MS) *)

(** What an observer of the process sees, in chronological order. *)
Inductive event : Type :=
| Delay (at_ms ms : Z)                      (* delay(ms) called *)
| Attempt (at_ms : Z) (body : json)         (* fetch issued by sendToExpo *)
| Settled (at_ms : Z) (tok : json) (ok : bool). (* sendToExpo resolved / rejected *)

Record state : Type := {
  queue : list QueueItem;
  sending : bool;
  lastSent : Z;
  now : Z;                      (* Date.now() *)
  active : list activation;     (* suspended processQueue calls *)
  trace : list event;
  log : list logline
}.

Definition initial (t0 : Z) : state :=
  {| queue := []; sending := false; lastSent := 0; now := t0;
     active := []; trace := []; log := [] |}.

Definition set_queue (q : list QueueItem) (s : state) : state :=
  {| queue := q; sending := sending s; lastSent := lastSent s; now := now s;
     active := active s; trace := trace s; log := log s |}.

Definition set_sending (b : bool) (s : state) : state :=
  {| queue := queue s; sending := b; lastSent := lastSent s; now := now s;
     active := active s; trace := trace s; log := log s |}.

Definition set_lastSent (t : Z) (s : state) : state :=
  {| queue := queue s; sending := sending s; lastSent := t; now := now s;
     active := active s; trace := trace s; log := log s |}.

Definition set_now (t : Z) (s : state) : state :=
  {| queue := queue s; sending := sending s; lastSent := lastSent s; now := t;
     active := active s; trace := trace s; log := log s |}.

Definition set_active (a : list activation) (s : state) : state :=
  {| queue := queue s; sending := sending s; lastSent := lastSent s; now := now s;
     active := a; trace := trace s; log := log s |}.

Definition suspend (a : activation) (s : state) : state :=
  set_active (a :: active s) s.

Definition emit (e : event) (s : state) : state :=
  {| queue := queue s; sending := sending s; lastSent := lastSent s; now := now s;
     active := active s; trace := trace s ++ [e]; log := log s |}.

Definition write_log (out : list logline) (s : state) : state :=
  {| queue := queue s; sending := sending s; lastSent := lastSent s; now := now s;
     active := active s; trace := trace s; log := log s ++ out |}.

(** ** Text and bytes *)

(** UTF-16 code units of the character a UTF-8 byte begins: none for a
    continuation byte, two for the lead byte of a four-byte character. *)
Definition code_units (c : Ascii.ascii) : nat :=
  let n := Ascii.N_of_ascii c in
  if (n <? 128)%N then 1%nat
  else if (n <? 192)%N then 0%nat
  else if (n <? 240)%N then 1%nat
  else 2%nat.

(** [s.length] of a text kept in UTF-8 *)
Fixpoint js_length (s : string) : nat :=
  match s with
  | EmptyString => O
  | String c s' => (code_units c + js_length s')%nat
  end.

(** *** Decoding a Buffer as UTF-8

    Between two bytes the decoder knows how many continuation bytes the
    character still needs, the range allowed for the next one, and the
    bytes of the character so far. A byte that cannot continue or begin a
    character yields U+FFFD, and so does a character cut off by the end of
    the Buffer. *)

Record utf8_state : Type := {
  need : nat;
  lower : N;
  upper : N;
  seen : string
}.

Definition utf8_idle : utf8_state :=
  {| need := 0; lower := 128; upper := 191; seen := "" |}.

(** U+FFFD *)
Definition replacement : string :=
  String (Ascii.ascii_of_N 239)
    (String (Ascii.ascii_of_N 191) (String (Ascii.ascii_of_N 189) "")).

Definition utf8_lead (c : Ascii.ascii) : string * utf8_state :=
  let n := Ascii.N_of_ascii c in
  let one := String c "" in
  if (n <? 128)%N then (one, utf8_idle)
  else if ((194 <=? n) && (n <=? 223))%N then
    ("", {| need := 1; lower := 128; upper := 191; seen := one |})
  else if ((224 <=? n) && (n <=? 239))%N then
    ("", {| need := 2;
            lower := if (n =? 224)%N then 160%N else 128%N;
            upper := if (n =? 237)%N then 159%N else 191%N;
            seen := one |})
  else if ((240 <=? n) && (n <=? 244))%N then
    ("", {| need := 3;
            lower := if (n =? 240)%N then 144%N else 128%N;
            upper := if (n =? 244)%N then 143%N else 191%N;
            seen := one |})
  else (replacement, utf8_idle).

Definition utf8_feed (st : utf8_state) (c : Ascii.ascii) : string * utf8_state :=
  match need st with
  | O => utf8_lead c
  | S k =>
      let n := Ascii.N_of_ascii c in
      if ((lower st <=? n) && (n <=? upper st))%N then
        let sofar := (seen st ++ String c "")%string in
        match k with
        | O => (sofar, utf8_idle)
        | S _ => ("", {| need := k; lower := 128; upper := 191; seen := sofar |})
        end
      else
        let '(out, st') := utf8_lead c in ((replacement ++ out)%string, st')
  end.

Fixpoint utf8_run (st : utf8_state) (bytes : string) : string :=
  match bytes with
  | EmptyString =>
      match need st with
      | O => ""
      | S _ => replacement
      end
  | String c rest =>
      let '(out, st') := utf8_feed st c in (out ++ utf8_run st' rest)%string
  end.

(** [buffer.toString()] *)
Definition utf8_decode (bytes : string) : string := utf8_run utf8_idle bytes.

(** ** HTTP side *)

Record request : Type := {
  method : string;       (* req.method *)
  url : string;          (* req.url *)
  host : string;         (* req.headers.host, as the template renders it *)
  chunks : list string   (* the Buffers of the 'data' events, in order *)
}.

Record response : Type := { res_status : Z; res_body : json }.

(** What a handler writes to [res]: the status and the object it passes to
    [sendJson]. *)
Definition sendJson (status : Z) (obj : json) : response :=
  {| res_status := status; res_body := obj |}.

(** What becomes of a request. *)
Inductive reply : Type :=
| Sent (r : response)    (* sendJson on a live connection *)
| Lost (r : response)    (* sendJson after req.destroy(): the socket is gone,
                            nothing reaches the caller *)
| Thrown (err : exn).    (* the handler threw outside its try: nothing is
                            written and its promise is rejected, unhandled *)

(** What the handler passed to [sendJson]; status 0 with [null] stands for
    no call at all. *)
Definition written (rp : reply) : response :=
  match rp with
  | Sent r | Lost r => r
  | Thrown _ => sendJson 0 JNull
  end.

(** What the caller receives. *)
Definition received (rp : reply) : option response :=
  match rp with
  | Sent r => Some r
  | Lost _ | Thrown _ => None
  end.

(** Reading one of the properties [to], [title], [body], [data], [sound],
    [channelId] of a parsed body: [null] throws, an object yields its own
    property, every other value has none of these. *)
Definition get_prop (o : json) (k : string) : M (option json) :=
  match o with
  | JNull =>
      throw (TypeError ("Cannot read properties of null (reading '" ++ k ++ "')"))
  | JObj fs => ret (assoc k fs)
  | _ => ret None
  end.

Definition prop (o : json) (k : string) : option json :=
  match o with
  | JObj fs => assoc k fs
  | _ => None
  end.

(** ** Observations on traces and responses *)

(** The bodies sent out, in the order the attempts were made. *)
Fixpoint attempts (tr : list event) : list json :=
  match tr with
  | [] => []
  | Attempt _ b :: tr' => b :: attempts tr'
  | _ :: tr' => attempts tr'
  end.

Definition is_delay (e : event) : bool :=
  match e with
  | Delay _ _ => true
  | _ => false
  end.

(** The time spent in the [delay] calls of a trace. *)
Fixpoint total_delay (tr : list event) : Z :=
  match tr with
  | [] => 0
  | Delay _ ms :: tr' => ms + total_delay tr'
  | _ :: tr' => total_delay tr'
  end.

(** The item a suspended activation has shifted off the queue but not yet
    handed to [sendToExpo]. *)
Definition held (a : activation) : list QueueItem :=
  match a with
  | AwaitInterval it _ => [it]
  | _ => []
  end.

(** Everything accepted and not yet attempted, oldest first. *)
Definition pending (s : state) : list QueueItem :=
  flat_map held (active s) ++ queue s.

(** The entries of a request's [to] field, before normalisation. *)
Definition to_entries (to : option json) : list json :=
  match to with
  | Some (JArr l) => l
  | Some v => [v]
  | None => []
  end.

Definition mentions (needle hay : string) : bool :=
  match index 0 needle hay with
  | Some _ => true
  | None => false
  end.

Definition error_message (r : response) : string :=
  match prop (res_body r) "error" with
  | Some (JStr m) => m
  | _ => ""
  end.

Definition is_string (v : json) : bool :=
  match v with
  | JStr _ => true
  | _ => false
  end.

(** ** Request documents used in the examples *)

Definition dquote : string := String (Ascii.ascii_of_nat 34) "".

Definition number_text (n : Z) : string :=
  DecimalString.NilZero.string_of_int (Z.to_int n).

(** [JSON.stringify] for documents whose strings need no escaping. *)
Fixpoint stringify (v : json) : string :=
  let fix elements (l : list json) : string :=
    match l with
    | [] => ""
    | [x] => stringify x
    | x :: l' => stringify x ++ "," ++ elements l'
    end%string in
  let fix members (fs : list (string * json)) : string :=
    match fs with
    | [] => ""
    | [(k, x)] => dquote ++ k ++ dquote ++ ":" ++ stringify x
    | (k, x) :: fs' =>
        dquote ++ k ++ dquote ++ ":" ++ stringify x ++ "," ++ members fs'
    end%string in
  match v with
  | JNull => "null"
  | JBool true => "true"
  | JBool false => "false"
  | JNum n => number_text n
  | JStr s => dquote ++ s ++ dquote
  | JArr l => "[" ++ elements l ++ "]"
  | JObj fs => "{" ++ members fs ++ "}"
  end%string.

(** [JSON.parse] on the texts of the given documents; any other text is
    taken as malformed. *)
Fixpoint parse_among (docs : list json) (text : string) : exn + json :=
  match docs with
  | [] => inl (SyntaxError "Unexpected token")
  | d :: docs' =>
      if String.eqb (stringify d) text then inr d else parse_among docs' text
  end.

Definition push_doc (to : json) : json :=
  JObj [("to", to); ("title", JStr "t"); ("body", JStr "b")].

Definition doc_no_to : json := JObj [("title", JStr "t"); ("body", JStr "b")].
Definition doc_no_title : json := JObj [("to", JStr "ABC")].
Definition doc_single : json := push_doc (JStr "X").
Definition doc_two : json := push_doc (JArr [JStr "A"; JStr "B"]).
Definition doc_gap : json := push_doc (JArr [JStr "A"; JStr ""; JStr "B"]).
Definition doc_number : json := push_doc (JArr [JNum 123; JStr "A"]).

Definition documents : list json :=
  [doc_no_to; doc_no_title; doc_single; doc_two; doc_gap; doc_number].

Definition demo_parse : string -> exn + json := parse_among documents.

(** [new URL(input, base).pathname] on the request targets of the
    examples; any other target is taken as invalid. *)
Definition demo_pathname (input base : string) : exn + string :=
  if String.eqb input "/push" || String.eqb input "/health" then inr input
  else inl (TypeError "Invalid URL").

Definition post_push (d : json) : request :=
  {| method := "POST"; url := "/push"; host := "localhost";
     chunks := [stringify d] |}.

Fixpoint repeat_string (n : nat) (s : string) : string :=
  match n with
  | O => ""
  | S n' => (s ++ repeat_string n' s)%string
  end.

(** 33 chunks of 512 bytes: 16 KiB and one chunk more. *)
Definition oversized : request :=
  {| method := "POST"; url := "/push"; host := "localhost";
     chunks := repeat (repeat_string 512 "x") 33 |}.


(** The euro sign: three bytes, one UTF-16 code unit. *)
Definition euro : string :=
  String (Ascii.ascii_of_N 226)
    (String (Ascii.ascii_of_N 130) (String (Ascii.ascii_of_N 172) "")).




(** The euro sign in two Buffers, cut after its second byte. *)
Definition euro_cut : list string :=
  [ String (Ascii.ascii_of_N 226) (String (Ascii.ascii_of_N 130) "");
    String (Ascii.ascii_of_N 172) "" ].


(** The request target [//], which [new URL] does not accept. *)
Definition no_host : request :=
  {| method := "GET"; url := "//"; host := "localhost"; chunks := [] |}.

Section Proxy.

Variable MIN_INTERVAL_MS : Z.
Variable STAGGER_MS : Z.

(** [JSON.parse], a builtin of the platform: a document or a thrown
    [SyntaxError]. *)
Variable JSON_parse : string -> exn + json.

(** [new URL(input, base).pathname], or the [TypeError] that [new URL]
    throws when it cannot parse [input] against [base]. *)
Variable URL_pathname : string -> string -> exn + string.

(** [chunk.toString()], the decoding [data += chunk] applies to a Buffer. *)
Variable Buffer_toString : string -> string.

(** *** The worker *)

(** [delay(ms)] called now: the timer is due [ms] later. *)
Definition delay (ms : Z) (k : Z -> activation) (s : state) : state :=
  suspend (k (now s + ms)) (emit (Delay (now s) ms) s).

(** The call [sendToExpo(token, payload)] up to its [await fetch(...)]. *)
Definition call_sendToExpo (it : QueueItem) (s : state) : state :=
  suspend (AwaitSend it)
          (emit (Attempt (now s) (expo_body (token it) (payload it))) s).

(** The [while] test and the loop body up to its first [await]. *)
Definition loop (s : state) : state :=
  match queue s with
  | [] => set_sending false s
  | it :: q =>
      let s1 := set_queue q s in
      let waitMs := Z.max 0 (lastSent s1 + MIN_INTERVAL_MS - now s1) in
      if waitMs >? 0 then delay waitMs (AwaitInterval it) s1
      else call_sendToExpo it s1
  end.

Definition processQueue (s : state) : state :=
  if sending s then s else loop (set_sending true s).

(** Resuming after [await sendToExpo]: a rejection leaves [processQueue]
    through its caller's [.catch], which logs it. *)
Definition after_send (it : QueueItem) (net : fetch_result) (s : state) : state :=
  let '(out, r) := sendToExpo (token it) (payload it) net in
  let s1 := write_log out s in
  match r with
  | inl err =>
      write_log [ErrQueue err] (emit (Settled (now s) (token it) false) s1)
  | inr _ =>
      let s2 := set_lastSent (now s) (emit (Settled (now s) (token it) true) s1) in
      if (STAGGER_MS >? 0) && negb (List.length (queue s2) =? 0)%nat
      then delay STAGGER_MS AwaitStagger s2
      else loop s2
  end.

(** *** [enqueue] *)

Definition push_all (tokens : list json) (payload : json) (s : state) : state :=
  set_queue (queue s ++ map (fun t => {| token := t; payload := payload |}) tokens) s.

Definition enqueue (tokens : list json) (payload : json) (s : state) : state :=
  processQueue (push_all tokens payload s).

(** *** [parseBody] *)

(** How the promise of [parseBody] settles, together with what the body
    reader did on the way: the texts it handed to [JSON.parse], and whether
    it called [req.destroy()]. *)
Record body_result : Type := {
  parse_calls : list string;
  destroyed : bool;
  settled : exn + json
}.

(** The 'data' handler over the chunks still to come, then the 'end'
    handler. Each chunk is decoded on its own as it is appended. A
    destroyed request emits no further events. *)
Fixpoint on_data (data : string) (cs : list string) : body_result :=
  match cs with
  | [] =>
      if String.eqb data ""
      then {| parse_calls := []; destroyed := false; settled := inr (JObj []) |}
      else {| parse_calls := [data]; destroyed := false;
              settled := JSON_parse data |}
  | chunk :: cs' =>
      let data' := String.append data (Buffer_toString chunk) in
      if Z.of_nat (js_length data') >? 1024 * 16
      then {| parse_calls := []; destroyed := true;
              settled := inl (Error "Payload too large") |}
      else on_data data' cs'
  end.

Definition parseBody (req : request) : body_result :=
  on_data "" (chunks req).

(** *** The request handler *)

(** A property holding [x]; one whose value is [undefined] does not
    survive [JSON.stringify]. *)
Definition own (k : string) (x : option json) : list (string * json) :=
  match x with
  | Some v => [(k, v)]
  | None => []
  end.

Definition build_payload (body : json) : json :=
  JObj (own "title" (prop body "title") ++
        own "body" (prop body "body") ++
        [ ("data", or_default (prop body "data") (JObj []));
          ("sound", or_default (prop body "sound") (JStr "default"));
          ("channelId", or_default (prop body "channelId") (JStr "default"));
          ("priority", JStr "high") ]).

Definition handle_failure (err : exn) (s : state) : response * state :=
  (sendJson 400 (JObj [("error", JStr (message err))]),
   write_log [ErrHandle err] s).

Definition push_route (body : json) (s : state) : response * state :=
  match outcome (get_prop body "to") with
  | inl err => handle_failure err s
  | inr to =>
      let tokens := normalizeTokens to in
      if (List.length tokens =? 0)%nat then
        (sendJson 400 (JObj [("error", JStr "Missing 'to' token(s)")]), s)
      else if falsy (prop body "title") || falsy (prop body "body") then
        (sendJson 400 (JObj [("error", JStr "Missing 'title' or 'body'")]), s)
      else
        (sendJson 202 (JObj [("queued", JNum (Z.of_nat (List.length tokens)))]),
         enqueue tokens (build_payload body) s)
  end.

(** [new URL(req.url, `http://${req.headers.host}`).pathname] *)
Definition pathname (req : request) : exn + string :=
  URL_pathname (url req) ("http://" ++ host req).

(** [sendJson(res, ...)] on a connection that may have been destroyed. *)
Definition deliver (gone : bool) (r : response) : reply :=
  if gone then Lost r else Sent r.

Definition server (req : request) (s : state) : reply * state :=
  match pathname req with
  | inl err => (Thrown err, s)
  | inr path =>
      if String.eqb (method req) "GET" && String.eqb path "/health" then
        (Sent (sendJson 200
                 (JObj [("status", JStr "ok");
                        ("queued", JNum (Z.of_nat (List.length (queue s))))])), s)
      else if String.eqb (method req) "POST" && String.eqb path "/push" then
        let read := parseBody req in
        match settled read with
        | inl err =>
            let '(r, s') := handle_failure err s in (deliver (destroyed read) r, s')
        | inr body =>
            let '(r, s') := push_route body s in (Sent r, s')
        end
      else
        (Sent (sendJson 404 (JObj [("error", JStr "Not found")])), s)
  end.

(** *** The event loop *)

(** What can happen next. Everything between two [await]s runs within one
    step, at one reading of the clock. *)

Inductive label : Type :=
| Tick (d : Z)                                   (* the clock advances by d >= 0 *)
| Http (req : request)                           (* a request is handled *)
| CallEnqueue (tokens : list json) (payload : json)
| TimerFires (i : nat)                           (* the timer of activation i *)
| FetchSettles (i : nat) (net : fetch_result).   (* the fetch of activation i *)

Fixpoint take_nth {A} (i : nat) (l : list A) {struct l} : option (A * list A) :=
  match l, i with
  | [], _ => None
  | x :: l', O => Some (x, l')
  | x :: l', S i' =>
      match take_nth i' l' with
      | Some (y, r) => Some (y, x :: r)
      | None => None
      end
  end.

Definition step (l : label) (s : state) : option state :=
  match l with
  | Tick d => if d <? 0 then None else Some (set_now (now s + d) s)
  | Http req =>
      match server req s with
      | (Thrown _, _) => None     (* the unhandled rejection ends the process *)
      | (_, s') => Some s'
      end
  | CallEnqueue tokens payload => Some (enqueue tokens payload s)
  | TimerFires i =>
      match take_nth i (active s) with
      | Some (AwaitInterval it due, rest) =>
          if due <=? now s then Some (call_sendToExpo it (set_active rest s))
          else None
      | Some (AwaitStagger due, rest) =>
          if due <=? now s then Some (loop (set_active rest s)) else None
      | _ => None
      end
  | FetchSettles i net =>
      match take_nth i (active s) with
      | Some (AwaitSend it, rest) => Some (after_send it net (set_active rest s))
      | _ => None
      end
  end.

Fixpoint run (ls : list label) (s : state) : option state :=
  match ls with
  | [] => Some s
  | l :: ls' =>
      match step l s with
      | Some s' => run ls' s'
      | None => None
      end
  end.

Definition reachable (s : state) : Prop :=
  exists t0 ls, run ls (initial t0) = Some s.


(** *** Properties of states and traces *)

(** Any send starts at least the minimum interval after every earlier
    completion. *)
Definition spaced (tr : list event) : Prop :=
  forall pre mid post t1 tok ok t2 b,
    tr = pre ++ Settled t1 tok ok :: mid ++ Attempt t2 b :: post ->
    t1 + MIN_INTERVAL_MS <= t2.

(** Between a completion and the following send the [delay] calls add up. *)
Definition additive (tr : list event) : Prop :=
  forall pre mid post t1 tok ok t2 b,
    tr = pre ++ Settled t1 tok ok :: mid ++ Attempt t2 b :: post ->
    forallb is_delay mid = true ->
    t1 + total_delay mid <= t2.

(** The delays called since the last completion have all elapsed at [d]. *)
Definition tail_owed (tr : list event) (d : Z) : Prop :=
  forall pre mid t1 tok ok,
    tr = pre ++ Settled t1 tok ok :: mid ->
    forallb is_delay mid = true ->
    t1 + total_delay mid <= d.

(** The earliest time at which the worker can run again. *)
Definition horizon (s : state) : Z :=
  match active s with
  | AwaitInterval _ due :: _ => due
  | AwaitStagger due :: _ => due
  | _ => now s
  end.

Record invariant (s : state) : Prop := {
  inv_single : (List.length (active s) <= 1)%nat;
  inv_flag : active s <> [] -> sending s = true;
  inv_idle : sending s = false -> queue s = [];
  inv_stagger : forall due, In (AwaitStagger due) (active s) -> queue s <> [];
  inv_settled_now :
    forall t tok ok, In (Settled t tok ok) (trace s) -> t <= now s;
  inv_settled_last :
    forall t tok, In (Settled t tok true) (trace s) -> t <= lastSent s;
  inv_interval :
    forall it due, In (AwaitInterval it due) (active s) ->
                   lastSent s + MIN_INTERVAL_MS <= due;
  inv_crash :
    forall t tok, In (Settled t tok false) (trace s) ->
                  active s = [] /\ sending s = true;
  inv_spaced : spaced (trace s);
  inv_additive : additive (trace s);
  inv_owed : tail_owed (trace s) (horizon s);
  inv_first : lastSent s = 0 \/ attempts (trace s) <> [];
  inv_sent : forall it, In (AwaitSend it) (active s) -> attempts (trace s) <> []
}.

(** The flag is up and no activation is left to take it down. *)
Definition wedged (s : state) : Prop :=
  sending s = true /\ active s = [].

(** *** Running the worker to completion *)

(** One resumption of the worker: timers fire when due, the pending fetch
    settles as [net] says. *)
Definition resume (net : QueueItem -> fetch_result) (s : state) : option state :=
  match active s with
  | [] => None
  | AwaitSend it :: _ => step (FetchSettles 0 (net it)) s
  | AwaitInterval _ due :: _ | AwaitStagger due :: _ =>
      run [Tick (Z.max 0 (due - now s)); TimerFires 0] s
  end.

Fixpoint drain (net : QueueItem -> fetch_result) (fuel : nat) (s : state) : state :=
  match fuel with
  | O => s
  | S fuel' =>
      match resume net s with
      | Some s' => drain net fuel' s'
      | None => s
      end
  end.

(** Resumptions left before the worker is through with its queue. *)
Definition work_left (s : state) : nat :=
  3 * List.length (queue s) +
  match active s with
  | AwaitInterval _ _ :: _ => 3
  | AwaitSend _ :: _ => 2
  | AwaitStagger _ :: _ => 1
  | [] => 0
  end.

(** The worker is executing: its own activation is off the list, the flag
    is up, and no earlier send has been rejected. *)
Record running (s : state) : Prop := {
  run_alone : active s = [];
  run_flag : sending s = true;
  run_no_crash : forall t tok, ~ In (Settled t tok false) (trace s);
  run_settled_now :
    forall t tok ok, In (Settled t tok ok) (trace s) -> t <= now s;
  run_settled_last :
    forall t tok, In (Settled t tok true) (trace s) -> t <= lastSent s;
  run_spaced : spaced (trace s);
  run_additive : additive (trace s);
  run_owed : tail_owed (trace s) (now s);
  run_first : lastSent s = 0 \/ attempts (trace s) <> []
}.

(** The body [sendToExpo] sends for a queue item. *)
Definition item_body (it : QueueItem) : json :=
  expo_body (token it) (payload it).

(** The item an activation is working on. *)
Definition in_hand (a : activation) : list QueueItem :=
  match a with
  | AwaitInterval it _ => [it]
  | AwaitSend it => [it]
  | AwaitStagger _ => []
  end.

(** Every token the worker still has to deal with is a string. *)
Definition string_tokens (s : state) : bool :=
  forallb (fun it => is_string (token it)) (flat_map in_hand (active s) ++ queue s).

(** The flag is up only while an activation is live. *)
Definition healthy (s : state) : Prop :=
  sending s = true -> active s <> [].

(** One resumption took the worker from [s] to [s'] and brought it closer
    to the end of its queue. *)
Record advanced (s s' : state) : Prop := {
  adv_healthy : healthy s';
  adv_strings : string_tokens s' = true;
  adv_less : (work_left s' < work_left s)%nat
}.

(** [req] is a POST to /push whose body parses to [body]. *)
Definition posts (req : request) (body : json) : Prop :=
  method req = "POST" /\ pathname req = inr "/push" /\
  settled (parseBody req) = inr body.

(** Size of a request body as [data.length] counts it: the code units of
    the decoded chunks. *)
Fixpoint body_length (cs : list string) : Z :=
  match cs with
  | [] => 0
  | c :: cs' => Z.of_nat (js_length (Buffer_toString c)) + body_length cs'
  end.

(** *** Example runs *)

Definition state_of (o : option state) : state :=
  match o with
  | Some s => s
  | None => initial 0
  end.

(** Two tokens in one request, the clock advancing just as far as the
    timers ask. *)
Definition two_sends : list label :=
  [ Http (post_push doc_two);
    FetchSettles 0 (Responded 200 (inr "ok"));
    Tick 3000; TimerFires 0;
    Tick 17000; TimerFires 0;
    FetchSettles 0 (FetchFailed (Error "network")) ].

(** A request whose first token is a number. *)
Definition number_first : list label :=
  [ Http (post_push doc_number);
    FetchSettles 0 (Responded 200 (inr "ok")) ].

(** *** Further observations *)

Definition time_of (e : event) : Z :=
  match e with
  | Delay t _ => t
  | Attempt t _ => t
  | Settled t _ _ => t
  end.

(** Sends that have settled, resolved or rejected. *)
Fixpoint settled_count (tr : list event) : nat :=
  match tr with
  | [] => O
  | Settled _ _ _ :: tr' => S (settled_count tr')
  | _ :: tr' => settled_count tr'
  end.

(** Activations that wait for a [fetch]. *)
Definition in_flight (acts : list activation) : nat :=
  List.length (filter (fun a => match a with AwaitSend _ => true | _ => false end) acts).

(** Events carry non-decreasing clock readings. *)
Definition chronological (tr : list event) : Prop :=
  forall pre e1 mid e2 post,
    tr = pre ++ e1 :: mid ++ e2 :: post -> time_of e1 <= time_of e2.

(** No send starts while a [delay] called before it is still running. *)
Definition honoured (tr : list event) : Prop :=
  forall pre t ms mid t2 b post,
    tr = pre ++ Delay t ms :: mid ++ Attempt t2 b :: post -> t + ms <= t2.

(** The clock reading of the latest resolved send, 0 when there is none. *)
Definition last_resolved (tr : list event) : Z :=
  fold_left (fun acc e => match e with
                          | Settled t _ true => t
                          | _ => acc
                          end) tr 0.

(** Book-keeping facts about a state, with [fl] sends in flight and the
    worker unable to run before [hz]. *)
Record ledger_at (fl : nat) (hz : Z) (s : state) : Prop := {
  led_outstanding :
    List.length (attempts (trace s)) = (settled_count (trace s) + fl)%nat;
  led_times : forall e, In e (trace s) -> time_of e <= now s;
  led_chrono : chronological (trace s);
  led_delays : forall t ms, In (Delay t ms) (trace s) -> t + ms <= hz;
  led_honoured : honoured (trace s);
  led_last : lastSent s = last_resolved (trace s);
  led_horizon : now s <= hz
}.

Definition ledger (s : state) : Prop :=
  ledger_at (in_flight (active s)) (Z.max (now s) (horizon s)) s.

(** Two states that differ in the console output at most. *)
Definition same_but_log (s1 s2 : state) : Prop :=
  queue s1 = queue s2 /\ sending s1 = sending s2 /\ lastSent s1 = lastSent s2 /\
  now s1 = now s2 /\ active s1 = active s2 /\ trace s1 = trace s2.

Definition is_object (v : json) : bool :=
  match v with
  | JObj _ => true
  | _ => false
  end.

Definition field_names (v : json) : list string :=
  match v with
  | JObj fs => map fst fs
  | _ => []
  end.

(** The bodies a step adds to what the proxy has to send: one per token of
    a direct [enqueue] call or of a request answered 202. *)
Definition accepted_bodies (l : label) : list json :=
  match l with
  | CallEnqueue tokens pl => map (fun t => expo_body t pl) tokens
  | Http req =>
      match settled (parseBody req) with
      | inr body =>
          if res_status (written (fst (server req (initial 0)))) =? 202
          then map (fun t => expo_body t (build_payload body))
                   (normalizeTokens (prop body "to"))
          else []
      | inl _ => []
      end
  | _ => []
  end.

(** The text a request body amounts to: its chunks, each decoded on its
    own, one after the other. *)
Fixpoint body_text (cs : list string) : string :=
  match cs with
  | [] => ""
  | c :: cs' => String.append (Buffer_toString c) (body_text cs')
  end.

(** *** The variant that sends immediately

    The same file without queue, [lastSent] and worker: the handler calls
    [sendToExpo] for every token at once and answers when [Promise.all]
    settles. *)

(** [Promise.all] while the sends settle: which have settled, what has been
    logged, and the response once there is one. *)
Record gather : Type := {
  g_done : list nat;
  g_log : list logline;
  g_res : option response
}.

(** The send for token number [i] settles, the network having answered
    [nets i]. The first rejection rejects [Promise.all] and the handler
    answers 400; the last send to resolve, none having been rejected,
    resolves it and the handler answers 200. A promise settles once. *)
Definition settle_one (tokens : list json) (payload : json)
    (nets : nat -> fetch_result) (g : gather) (i : nat) : gather :=
  if existsb (Nat.eqb i) (g_done g) then g
  else
    match nth_error tokens i with
    | None => g
    | Some tok =>
        let '(out, r) := sendToExpo tok payload (nets i) in
        let done := i :: g_done g in
        match g_res g, r with
        | Some res, _ =>
            {| g_done := done; g_log := g_log g ++ out; g_res := Some res |}
        | None, inl err =>
            {| g_done := done;
               g_log := g_log g ++ out ++ [ErrHandle err];
               g_res := Some (sendJson 400 (JObj [("error", JStr (message err))])) |}
        | None, inr _ =>
            {| g_done := done;
               g_log := g_log g ++ out;
               g_res :=
                 if (List.length done =? List.length tokens)%nat
                 then Some (sendJson 200
                              (JObj [("sent", JNum (Z.of_nat (List.length tokens)))]))
                 else None |}
        end
    end.

Definition promise_all (tokens : list json) (payload : json)
    (nets : nat -> fetch_result) (order : list nat) : gather :=
  fold_left (settle_one tokens payload nets) order
            {| g_done := []; g_log := []; g_res := None |}.

(** What one request comes to: the bodies sent out, the console output and
    what becomes of the request, [None] as long as the handler is waiting
    for the sends. *)
Record immediate : Type := {
  im_attempts : list json;
  im_log : list logline;
  im_response : option reply
}.

Definition answer (out : list logline) (r : reply) : immediate :=
  {| im_attempts := []; im_log := out; im_response := Some r |}.

(** The handler of the immediate variant; [order] lists the sends in the
    order in which they settle. *)
Definition server_immediate (req : request) (nets : nat -> fetch_result)
    (order : list nat) : immediate :=
  match pathname req with
  | inl err => answer [] (Thrown err)
  | inr path =>
      if String.eqb (method req) "GET" && String.eqb path "/health" then
        answer [] (Sent (sendJson 200 (JObj [("status", JStr "ok")])))
      else if String.eqb (method req) "POST" && String.eqb path "/push" then
        let read := parseBody req in
        match settled read with
        | inl err =>
            answer [ErrHandle err]
                   (deliver (destroyed read)
                      (sendJson 400 (JObj [("error", JStr (message err))])))
        | inr body =>
            match outcome (get_prop body "to") with
            | inl err =>
                answer [ErrHandle err]
                       (Sent (sendJson 400 (JObj [("error", JStr (message err))])))
            | inr to =>
                let tokens := normalizeTokens to in
                if (List.length tokens =? 0)%nat then
                  answer [] (Sent (sendJson 400
                                     (JObj [("error", JStr "Missing 'to' token(s)")])))
                else if falsy (prop body "title") || falsy (prop body "body") then
                  answer [] (Sent (sendJson 400
                                     (JObj [("error", JStr "Missing 'title' or 'body'")])))
                else
                  let payload := build_payload body in
                  let g := promise_all tokens payload nets order in
                  {| im_attempts := map (fun t => expo_body t payload) tokens;
                     im_log := g_log g;
                     im_response := option_map Sent (g_res g) |}
            end
        end
      else
        answer [] (Sent (sendJson 404 (JObj [("error", JStr "Not found")])))
  end.

(** *** Further examples *)

(** 32 chunks of 512 bytes: 16 KiB to the byte. *)
Definition at_limit : request :=
  {| method := "POST"; url := "/push"; host := "localhost";
     chunks := repeat (repeat_string 512 "x") 32 |}.

(** A body that is no JSON. *)
Definition malformed : request :=
  {| method := "POST"; url := "/push"; host := "localhost";
     chunks := ["{"; "to:"] |}.

(** The same body in one chunk. *)
Definition malformed_whole : request :=
  {| method := "POST"; url := "/push"; host := "localhost";
     chunks := ["{to:"] |}.

Definition expo_token : string := "ExponentPushToken[abcdefgh]".

Definition health_check : request :=
  {| method := "GET"; url := "/health"; host := "localhost"; chunks := [] |}.

(** ** The delivery client *)

Lemma token_substring_string (tok : json) :
  is_string tok = true -> exists p, token_substring tok = ([], inr p).
Proof.
  destruct tok; cbn; try discriminate. intros _. eexists; reflexivity.
Qed.

Lemma token_substring_other (tok : json) :
  is_string tok = false ->
  token_substring tok = ([], inl (TypeError "token.substring is not a function")).
Proof. destruct tok; cbn; try discriminate; reflexivity. Qed.

(** With a string token every path of [sendToExpo] ends in a resolved
    promise, whatever the network does. *)
Lemma sendToExpo_string_resolves (tok pl : json) (net : fetch_result) :
  is_string tok = true -> outcome (sendToExpo tok pl net) = inr tt.
Proof.
  intros Hs. destruct (token_substring_string tok Hs) as [p Hp].
  unfold sendToExpo, await_fetch.
  destruct net as [st [e | text] | e]; cbn -[when]; rewrite Hp; cbn -[when];
    try reflexivity.
  repeat match goal with
         | |- context [when ?b _] => destruct b; cbn
         end; reflexivity.
Qed.

Lemma sendToExpo_non_string (tok pl : json) (net : fetch_result) :
  is_string tok = false ->
  sendToExpo tok pl net =
    ([], inl (TypeError "token.substring is not a function")).
Proof.
  intros Hs. pose proof (token_substring_other tok Hs) as Hp.
  unfold sendToExpo, await_fetch.
  destruct net as [st [e | text] | e]; cbn; rewrite Hp; reflexivity.
Qed.

(** C6. The claim is that [sendToExpo] never throws past its boundary, for
    every token. The code breaks it: normalizeTokens lets any truthy JSON
    value through as a token, and for a token that is not a string the
    [catch] branch itself throws, because it evaluates [token.substring]
    again. Whatever the network answered, the promise is rejected with that
    TypeError and nothing has been logged. *)
Theorem sendToExpo_throws_past_boundary (tok pl : json) (net : fetch_result) :
  truthy tok = true -> is_string tok = false ->
  In tok (normalizeTokens (Some (JArr [tok]))) /\
  outcome (sendToExpo tok pl net) =
    inl (TypeError "token.substring is not a function") /\
  output (sendToExpo tok pl net) = [].
Proof.
  intros Ht Hs. split.
  - cbn. rewrite Ht. left. reflexivity.
  - rewrite (sendToExpo_non_string tok pl net Hs). split; reflexivity.
Qed.

Lemma assoc_set_same (k : string) (v : json) (fs : list (string * json)) :
  assoc k (assoc_set k v fs) = Some v.
Proof.
  induction fs as [| [k' v'] fs IH]; simpl.
  - rewrite String.eqb_refl. reflexivity.
  - destruct (String.eqb k k') eqn:E; simpl.
    + rewrite String.eqb_refl. reflexivity.
    + rewrite E. exact IH.
Qed.

(** Every body sent out is addressed to the token of its queue item. *)
Lemma expo_body_to (tok pl : json) : prop (expo_body tok pl) "to" = Some tok.
Proof.
  unfold expo_body, spread_set.
  destruct pl; try reflexivity. apply assoc_set_same.
Qed.

(** ** Traces that grow at the end *)

Lemma snoc_eq_app {A} (l : list A) (e : A) (l1 l2 : list A) :
  l ++ [e] = l1 ++ l2 ->
  (l2 = [] /\ l1 = l ++ [e]) \/ (exists l2', l2 = l2' ++ [e] /\ l = l1 ++ l2').
Proof.
  intros H. destruct l2 as [| x l2'].
  - left. split; [reflexivity |]. rewrite app_nil_r in H. now symmetry.
  - right. destruct (@exists_last A (x :: l2')) as [l' [y Hy]]; [discriminate |].
    rewrite Hy in H. rewrite app_assoc in H.
    apply app_inj_tail in H as [Hl He]. subst y.
    exists l'. split; [exact Hy | exact Hl].
Qed.

(** A trace extended by [e] and cut at a completion [x]: the completion is
    [e] itself or lies in the old trace. *)
Lemma snoc_cut_one (tr : list event) (e x : event) (pre mid : list event) :
  tr ++ [e] = pre ++ x :: mid ->
  (mid = [] /\ e = x /\ tr = pre) \/
  (exists mid', mid = mid' ++ [e] /\ tr = pre ++ x :: mid').
Proof.
  intros H. apply snoc_eq_app in H as [[H _] | [l2 [H2 Htr]]]; [discriminate |].
  destruct l2 as [| y l2]; cbn in H2.
  - left. injection H2 as -> ->. rewrite app_nil_r in Htr. auto.
  - right. injection H2 as -> ->. exists l2. auto.
Qed.

(** The same for a completion [x] followed later by a send [y]. *)
Lemma snoc_cut_two (tr : list event) (e x y : event) (pre mid post : list event) :
  tr ++ [e] = pre ++ x :: mid ++ y :: post ->
  (post = [] /\ e = y /\ tr = pre ++ x :: mid) \/
  (exists post', post = post' ++ [e] /\ tr = pre ++ x :: mid ++ y :: post').
Proof.
  intros H.
  replace (pre ++ x :: mid ++ y :: post) with ((pre ++ x :: mid) ++ y :: post) in H
    by (rewrite <- app_assoc; reflexivity).
  apply snoc_cut_one in H as [(-> & -> & ->) | [post' [-> ->]]].
  - left. auto.
  - right. exists post'. split; [reflexivity |].
    rewrite <- app_assoc. reflexivity.
Qed.

Lemma attempts_app (tr tr' : list event) :
  attempts (tr ++ tr') = attempts tr ++ attempts tr'.
Proof.
  induction tr as [| e tr IH]; cbn; [reflexivity |].
  destruct e; cbn; rewrite IH; reflexivity.
Qed.

Lemma total_delay_app (tr tr' : list event) :
  total_delay (tr ++ tr') = total_delay tr + total_delay tr'.
Proof.
  induction tr as [| e tr IH]; cbn; [reflexivity |].
  destruct e; rewrite IH; lia.
Qed.

Lemma forallb_snoc {A} (f : A -> bool) (l : list A) (x : A) :
  forallb f (l ++ [x]) = forallb f l && f x.
Proof. rewrite forallb_app. cbn. rewrite andb_true_r. reflexivity. Qed.

Lemma spaced_snoc_attempt (tr : list event) (t2 : Z) (b : json) :
  spaced tr ->
  (forall t1 tok ok, In (Settled t1 tok ok) tr -> t1 + MIN_INTERVAL_MS <= t2) ->
  spaced (tr ++ [Attempt t2 b]).
Proof.
  intros Hs Hall pre mid post t1 tok ok t2' b' H.
  apply snoc_cut_two in H as [(_ & He & Htr) | [post' [_ Htr]]].
  - injection He as <- _. apply (Hall t1 tok ok).
    rewrite Htr. apply in_or_app. right. left. reflexivity.
  - eapply Hs. exact Htr.
Qed.

Lemma spaced_snoc_other (tr : list event) (e : event) :
  spaced tr -> (forall t b, e <> Attempt t b) -> spaced (tr ++ [e]).
Proof.
  intros Hs Hne pre mid post t1 tok ok t2 b H.
  apply snoc_cut_two in H as [(_ & He & _) | [post' [_ Htr]]].
  - exfalso. eapply Hne. exact He.
  - eapply Hs. exact Htr.
Qed.

Lemma additive_snoc_attempt (tr : list event) (t2 : Z) (b : json) :
  additive tr -> tail_owed tr t2 -> additive (tr ++ [Attempt t2 b]).
Proof.
  intros Ha Ho pre mid post t1 tok ok t2' b' H Hmid.
  apply snoc_cut_two in H as [(_ & He & Htr) | [post' [_ Htr]]].
  - injection He as <- _. eapply Ho; eassumption.
  - eapply Ha; eassumption.
Qed.

Lemma additive_snoc_other (tr : list event) (e : event) :
  additive tr -> (forall t b, e <> Attempt t b) -> additive (tr ++ [e]).
Proof.
  intros Ha Hne pre mid post t1 tok ok t2 b H Hmid.
  apply snoc_cut_two in H as [(_ & He & _) | [post' [_ Htr]]].
  - exfalso. eapply Hne. exact He.
  - eapply Ha; eassumption.
Qed.

Lemma tail_owed_mono (tr : list event) (d d' : Z) :
  tail_owed tr d -> d <= d' -> tail_owed tr d'.
Proof.
  intros Ho Hle pre mid t1 tok ok H Hmid.
  specialize (Ho pre mid t1 tok ok H Hmid). lia.
Qed.

Lemma tail_owed_snoc_attempt (tr : list event) (t : Z) (b : json) (d : Z) :
  tail_owed (tr ++ [Attempt t b]) d.
Proof.
  intros pre mid t1 tok ok H Hmid.
  apply snoc_cut_one in H as [(_ & He & _) | [mid' [-> _]]]; [discriminate |].
  rewrite forallb_snoc in Hmid. cbn in Hmid.
  rewrite andb_false_r in Hmid. discriminate.
Qed.

Lemma tail_owed_snoc_settled (tr : list event) (t : Z) (tok : json) (ok : bool) (d : Z) :
  t <= d -> tail_owed (tr ++ [Settled t tok ok]) d.
Proof.
  intros Hle pre mid t1 tok1 ok1 H Hmid.
  apply snoc_cut_one in H as [(-> & He & _) | [mid' [-> _]]].
  - injection He as <- _ _. cbn. lia.
  - rewrite forallb_snoc in Hmid. cbn in Hmid.
    rewrite andb_false_r in Hmid. discriminate.
Qed.

Lemma tail_owed_snoc_delay (tr : list event) (t ms d : Z) :
  tail_owed tr d -> tail_owed (tr ++ [Delay t ms]) (d + ms).
Proof.
  intros Ho pre mid t1 tok ok H Hmid.
  apply snoc_cut_one in H as [(_ & He & _) | [mid' [-> Htr]]]; [discriminate |].
  rewrite forallb_snoc in Hmid. apply andb_prop in Hmid as [Hmid _].
  specialize (Ho pre mid' t1 tok ok Htr Hmid).
  rewrite total_delay_app. cbn. lia.
Qed.

Lemma in_snoc {A} (x e : A) (l : list A) : In x (l ++ [e]) -> In x l \/ x = e.
Proof.
  intros H. apply in_app_or in H as [H | [H | []]]; auto.
Qed.

(** ** The invariant *)

Lemma invariant_initial (t0 : Z) : invariant (initial t0).
Proof.
  constructor; cbn; try tauto; try lia; try discriminate.
  - intros pre mid post t1 tok ok t2 b H. destruct pre; discriminate.
  - intros pre mid post t1 tok ok t2 b H. destruct pre; discriminate.
  - intros pre mid t1 tok ok H. destruct pre; discriminate.
Qed.

Lemma attempts_snoc_nonempty (tr : list event) (t : Z) (b : json) :
  attempts (tr ++ [Attempt t b]) <> [].
Proof.
  rewrite attempts_app. cbn. intros H. apply app_eq_nil in H as [_ H]. discriminate.
Qed.

Lemma call_sendToExpo_invariant (it : QueueItem) (s : state) :
  running s -> lastSent s + MIN_INTERVAL_MS <= now s ->
  invariant (call_sendToExpo it s).
Proof.
  intros R Hdue. destruct R.
  constructor; cbn.
  - rewrite run_alone0. cbn. lia.
  - intros _. assumption.
  - congruence.
  - intros due [H | H]; [discriminate |]. rewrite run_alone0 in H. destruct H.
  - intros t tok ok H. apply in_snoc in H as [H | H]; [eauto | discriminate].
  - intros t tok H. apply in_snoc in H as [H | H]; [eauto | discriminate].
  - intros it' due [H | H]; [discriminate |]. rewrite run_alone0 in H. destruct H.
  - intros t tok H. apply in_snoc in H as [H | H]; [| discriminate].
    exfalso. eapply run_no_crash0. exact H.
  - apply spaced_snoc_attempt; [assumption |].
    intros t1 tok [|] H.
    + apply run_settled_last0 in H. lia.
    + exfalso. eapply run_no_crash0. exact H.
  - apply additive_snoc_attempt; assumption.
  - apply tail_owed_snoc_attempt.
  - right. apply attempts_snoc_nonempty.
  - intros _ _. apply attempts_snoc_nonempty.
Qed.

Lemma attempts_snoc_delay (tr : list event) (t ms : Z) :
  attempts (tr ++ [Delay t ms]) = attempts tr.
Proof. rewrite attempts_app. cbn. apply app_nil_r. Qed.

Lemma attempts_snoc_settled (tr : list event) (t : Z) (tok : json) (ok : bool) :
  attempts (tr ++ [Settled t tok ok]) = attempts tr.
Proof. rewrite attempts_app. cbn. apply app_nil_r. Qed.

Lemma running_set_queue (q : list QueueItem) (s : state) :
  running s -> running (set_queue q s).
Proof. intros []. constructor; cbn; assumption. Qed.

Lemma loop_invariant (s : state) : running s -> invariant (loop s).
Proof.
  intros R. unfold loop.
  destruct (queue s) as [| it q] eqn:Hq.
  - destruct R. constructor; cbn; rewrite ?run_alone0; cbn;
      try tauto; try lia; try congruence; try assumption.
    + intros t tok H. exfalso. eapply run_no_crash0. exact H.
    + unfold horizon. cbn. rewrite run_alone0. assumption.
  - cbn zeta.
    destruct (Z.max 0 (lastSent (set_queue q s) + MIN_INTERVAL_MS
                       - now (set_queue q s)) >? 0) eqn:Hw.
    + cbn in Hw. apply Z.gtb_lt in Hw.
      destruct R. unfold delay. constructor; cbn.
      * rewrite run_alone0. cbn. lia.
      * intros _. assumption.
      * congruence.
      * intros due [H | H]; [discriminate |]. rewrite run_alone0 in H. destruct H.
      * intros t tok ok H. apply in_snoc in H as [H | H]; [eauto | discriminate].
      * intros t tok H. apply in_snoc in H as [H | H]; [eauto | discriminate].
      * intros it' due [H | H].
        -- injection H as _ <-. lia.
        -- rewrite run_alone0 in H. destruct H.
      * intros t tok H. apply in_snoc in H as [H | H]; [| discriminate].
        exfalso. eapply run_no_crash0. exact H.
      * apply spaced_snoc_other; [assumption | discriminate].
      * apply additive_snoc_other; [assumption | discriminate].
      * apply tail_owed_snoc_delay. assumption.
      * rewrite attempts_snoc_delay. assumption.
      * intros it' [H | H]; [discriminate |]. rewrite run_alone0 in H. destruct H.
    + cbn in Hw. rewrite Z.gtb_ltb in Hw. apply Z.ltb_ge in Hw.
      apply call_sendToExpo_invariant.
      * apply running_set_queue. assumption.
      * cbn. lia.
Qed.

(** ** The request handler, by parts *)

(** A request that is handled and leaves the process running. *)
Lemma step_http (req : request) (s s' : state) :
  step (Http req) s = Some s' -> s' = snd (server req s).
Proof.
  unfold step. destruct (server req s) as [[r | r | err] s1]; cbn; congruence.
Qed.

Lemma step_http_thrown (req : request) (s : state) (err : exn) :
  pathname req = inl err -> step (Http req) s = None.
Proof. intros H. unfold step, server. rewrite H. reflexivity. Qed.

Lemma server_state (req : request) (s : state) :
  snd (server req s) =
  match pathname req with
  | inl _ => s
  | inr path =>
      if String.eqb (method req) "GET" && String.eqb path "/health" then s
      else if String.eqb (method req) "POST" && String.eqb path "/push" then
        match settled (parseBody req) with
        | inl err => snd (handle_failure err s)
        | inr body => snd (push_route body s)
        end
      else s
  end.
Proof.
  unfold server. destruct (pathname req) as [err | path]; [reflexivity |].
  destruct (_ && _); [reflexivity |].
  destruct (_ && _); [| reflexivity].
  destruct (settled (parseBody req)) as [err | body]; [reflexivity |].
  destruct (push_route body s). reflexivity.
Qed.

Lemma server_written (req : request) (s : state) :
  written (fst (server req s)) =
  match pathname req with
  | inl _ => sendJson 0 JNull
  | inr path =>
      if String.eqb (method req) "GET" && String.eqb path "/health" then
        sendJson 200 (JObj [("status", JStr "ok");
                            ("queued", JNum (Z.of_nat (List.length (queue s))))])
      else if String.eqb (method req) "POST" && String.eqb path "/push" then
        match settled (parseBody req) with
        | inl err => fst (handle_failure err s)
        | inr body => fst (push_route body s)
        end
      else sendJson 404 (JObj [("error", JStr "Not found")])
  end.
Proof.
  unfold server. destruct (pathname req) as [err | path]; [reflexivity |].
  destruct (_ && _); [reflexivity |].
  destruct (_ && _); [| reflexivity].
  destruct (settled (parseBody req)) as [err | body].
  - cbn. destruct (destroyed (parseBody req)); reflexivity.
  - destruct (push_route body s). reflexivity.
Qed.

(** The handler does not throw once the URL has parsed. *)
Lemma server_not_thrown (req : request) (s : state) (path : string) :
  pathname req = inr path -> forall err, fst (server req s) <> Thrown err.
Proof.
  intros Hp err. unfold server. rewrite Hp.
  destruct (_ && _); [discriminate |].
  destruct (_ && _); [| discriminate].
  destruct (settled (parseBody req)) as [e | body].
  - cbn. destruct (destroyed (parseBody req)); discriminate.
  - destruct (push_route body s). discriminate.
Qed.

Lemma invariant_write_log (out : list logline) (s : state) :
  invariant s -> invariant (write_log out s).
Proof. intros []. constructor; cbn; assumption. Qed.

Lemma running_settled (it : QueueItem) (out : list logline) (s : state) :
  running s -> attempts (trace s) <> [] ->
  running (set_lastSent (now s)
             (emit (Settled (now s) (token it) true) (write_log out s))).
Proof.
  intros [] Hatt. constructor; cbn; try assumption.
  - intros t tok H. apply in_snoc in H as [H | H]; [| discriminate].
    eapply run_no_crash0. exact H.
  - intros t tok ok H. apply in_snoc in H as [H | H]; [eauto |].
    injection H as -> _ _. lia.
  - intros t tok H. apply in_snoc in H as [H | H].
    + eapply run_settled_now0. exact H.
    + injection H as -> _. lia.
  - apply spaced_snoc_other; [assumption | discriminate].
  - apply additive_snoc_other; [assumption | discriminate].
  - apply tail_owed_snoc_settled. lia.
  - right. rewrite attempts_snoc_settled. assumption.
Qed.

Lemma after_send_invariant (it : QueueItem) (net : fetch_result) (s : state) :
  running s -> attempts (trace s) <> [] -> invariant (after_send it net s).
Proof.
  intros R Hatt. unfold after_send.
  destruct (sendToExpo (token it) (payload it) net) as [out [err | []]].
  - destruct R. constructor; cbn; rewrite ?run_alone0; cbn;
      try tauto; try lia; try congruence.
    + intros t tok ok H. apply in_snoc in H as [H | H]; [eauto |].
      injection H as -> _ _. lia.
    + intros t tok H. apply in_snoc in H as [H | H]; [eauto | discriminate].
    + apply spaced_snoc_other; [assumption | discriminate].
    + apply additive_snoc_other; [assumption | discriminate].
    + unfold horizon. cbn. rewrite run_alone0.
      apply tail_owed_snoc_settled. lia.
    + right. rewrite attempts_snoc_settled. assumption.
  - pose proof (running_settled it out s R Hatt) as R2.
    set (s2 := set_lastSent (now s) _) in *.
    destruct ((STAGGER_MS >? 0) && negb (List.length (queue s2) =? 0)%nat) eqn:Hst.
    + apply andb_prop in Hst as [_ Hq].
      destruct R2. unfold delay. constructor; cbn -[s2].
      * rewrite run_alone0. cbn. lia.
      * intros _. assumption.
      * congruence.
      * intros _ _ Hq0. rewrite Hq0 in Hq. discriminate.
      * intros t tok ok H. apply in_snoc in H as [H | H]; [eauto | discriminate].
      * intros t tok H. apply in_snoc in H as [H | H]; [eauto | discriminate].
      * intros it' due [H | H]; [discriminate |]. rewrite run_alone0 in H. destruct H.
      * intros t tok H. apply in_snoc in H as [H | H]; [| discriminate].
        exfalso. eapply run_no_crash0. exact H.
      * apply spaced_snoc_other; [assumption | discriminate].
      * apply additive_snoc_other; [assumption | discriminate].
      * apply tail_owed_snoc_delay. assumption.
      * rewrite attempts_snoc_delay. assumption.
      * intros it' [H | H]; [discriminate |]. rewrite run_alone0 in H. destruct H.
    + apply loop_invariant. assumption.
Qed.

Lemma horizon_alone (s : state) : active s = [] -> horizon s = now s.
Proof. unfold horizon. intros ->. reflexivity. Qed.

Lemma invariant_idle_alone (s : state) :
  invariant s -> sending s = false -> active s = [].
Proof.
  intros I Hs. destruct (active s) eqn:Ha; [reflexivity |].
  assert (sending s = true) by (apply (inv_flag s I); rewrite Ha; discriminate).
  congruence.
Qed.

Lemma invariant_idle_running (q : list QueueItem) (s : state) :
  invariant s -> sending s = false ->
  running (set_sending true (set_queue q s)).
Proof.
  intros I Hs. pose proof (invariant_idle_alone s I Hs) as Ha.
  destruct I. constructor; cbn; try assumption; try reflexivity.
  - intros t tok H. apply inv_crash0 in H as [_ H]. congruence.
  - rewrite <- (horizon_alone s Ha). assumption.
Qed.

Lemma enqueue_invariant (tokens : list json) (pl : json) (s : state) :
  invariant s -> invariant (enqueue tokens pl s).
Proof.
  intros I. unfold enqueue, processQueue.
  destruct (sending (push_all tokens pl s)) eqn:Hs.
  - cbn in Hs. destruct I. unfold push_all. constructor; cbn; try assumption.
    + congruence.
    + intros due H Hq. apply app_eq_nil in Hq as [Hq _].
      eapply inv_stagger0; eassumption.
  - cbn in Hs. apply loop_invariant.
    apply (invariant_idle_running _ s I Hs).
Qed.

Lemma server_invariant (req : request) (s : state) :
  invariant s -> invariant (snd (server req s)).
Proof.
  intros I. rewrite server_state.
  destruct (pathname req) as [perr | path]; [exact I |].
  destruct (_ && _); [exact I |].
  destruct (_ && _); [| exact I].
  assert (Hfail : forall err, invariant (snd (handle_failure err s))).
  { intros err. cbn. apply invariant_write_log. exact I. }
  destruct (settled (parseBody req)) as [err | body]; [apply Hfail |].
  unfold push_route.
  destruct (outcome (get_prop body "to")) as [err | to]; [apply Hfail |].
  destruct (List.length (normalizeTokens to) =? 0)%nat; [exact I |].
  destruct (_ || _); [exact I |].
  cbn. apply enqueue_invariant. exact I.
Qed.

Lemma take_nth_single {A} (i : nat) (l : list A) (a : A) (rest : list A) :
  (List.length l <= 1)%nat -> take_nth i l = Some (a, rest) ->
  l = [a] /\ rest = [] /\ i = O.
Proof.
  intros Hlen H. destruct l as [| x [| y l]]; cbn in *; try lia.
  - discriminate.
  - destruct i; [| discriminate]. injection H as -> <-. auto.
Qed.

Lemma invariant_resumed (s : state) (a : activation) :
  invariant s -> active s = [a] -> horizon s <= now s ->
  running (set_active [] s).
Proof.
  intros I Ha Hdue. destruct I. constructor; cbn; try assumption; try reflexivity.
  - apply inv_flag0. rewrite Ha. discriminate.
  - intros t tok H. apply inv_crash0 in H as [H _]. rewrite Ha in H. discriminate.
  - eapply tail_owed_mono; eassumption.
Qed.

Lemma step_invariant (l : label) (s s' : state) :
  invariant s -> step l s = Some s' -> invariant s'.
Proof.
  intros I H. destruct l as [d | req | tokens pl | i | i net]; cbn in H.
  - destruct (d <? 0) eqn:Hd; [discriminate |]. injection H as <-.
    apply Z.ltb_ge in Hd.
    destruct I. constructor; cbn; try assumption.
    + intros t tok ok Hin. apply inv_settled_now0 in Hin. lia.
    + eapply tail_owed_mono; [eassumption |].
      unfold horizon. cbn. destruct (active s) as [| [] ?]; lia.
  - apply step_http in H. subst s'. apply server_invariant. exact I.
  - injection H as <-. apply enqueue_invariant. exact I.
  - destruct (take_nth i (active s)) as [[a rest] |] eqn:Ht; [| discriminate].
    apply take_nth_single in Ht as (Ha & -> & ->); [| apply (inv_single s I)].
    destruct a as [it due | it | due]; try discriminate.
    + destruct (due <=? now s) eqn:Hdue; [| discriminate]. injection H as <-.
      apply Z.leb_le in Hdue.
      apply call_sendToExpo_invariant.
      * eapply invariant_resumed; [exact I | exact Ha |].
        unfold horizon. rewrite Ha. exact Hdue.
      * cbn. pose proof (inv_interval s I it due) as Hi.
        rewrite Ha in Hi. specialize (Hi (or_introl eq_refl)). lia.
    + destruct (due <=? now s) eqn:Hdue; [| discriminate]. injection H as <-.
      apply Z.leb_le in Hdue.
      apply loop_invariant.
      eapply invariant_resumed; [exact I | exact Ha |].
      unfold horizon. rewrite Ha. exact Hdue.
  - destruct (take_nth i (active s)) as [[a rest] |] eqn:Ht; [| discriminate].
    apply take_nth_single in Ht as (Ha & -> & ->); [| apply (inv_single s I)].
    destruct a as [it due | it | due]; try discriminate.
    injection H as <-.
    apply after_send_invariant.
    + eapply invariant_resumed; [exact I | exact Ha |].
      unfold horizon. rewrite Ha. lia.
    + cbn. apply (inv_sent s I it). rewrite Ha. left. reflexivity.
Qed.

Lemma run_invariant (ls : list label) (s s' : state) :
  invariant s -> run ls s = Some s' -> invariant s'.
Proof.
  revert s. induction ls as [| l ls IH]; cbn; intros s I H.
  - injection H as <-. exact I.
  - destruct (step l s) as [s1 |] eqn:Hs; [| discriminate].
    eapply IH; [| exact H]. eapply step_invariant; eassumption.
Qed.

Lemma reachable_invariant (s : state) : reachable s -> invariant s.
Proof.
  intros (t0 & ls & H). eapply run_invariant; [| exact H].
  apply invariant_initial.
Qed.

(** ** Spacing of sends *)

(** C1. In every reachable state, a send that comes after a completed
    delivery attempt (whichever item it is for) was started at least
    MIN_INTERVAL_MS after that completion. The worker gets there by taking
    the head item, computing wait = max(0, lastSent + MIN_INTERVAL_MS - now)
    and, when the wait is positive, sleeping for it before it calls
    [sendToExpo]; a pending timer of that kind is due no earlier than
    lastSent + MIN_INTERVAL_MS. *)
Theorem minimum_interval_between_sends (s : state) :
  reachable s ->
  (forall pre mid post t1 tok ok t2 b,
      trace s = pre ++ Settled t1 tok ok :: mid ++ Attempt t2 b :: post ->
      t1 + MIN_INTERVAL_MS <= t2) /\
  (forall it q,
      queue s = it :: q ->
      let wait := Z.max 0 (lastSent s + MIN_INTERVAL_MS - now s) in
      loop s = if wait >? 0
               then delay wait (AwaitInterval it) (set_queue q s)
               else call_sendToExpo it (set_queue q s)) /\
  (forall it due,
      In (AwaitInterval it due) (active s) ->
      lastSent s + MIN_INTERVAL_MS <= due).
Proof.
  intros R. apply reachable_invariant in R. split; [| split].
  - exact (inv_spaced s R).
  - intros it q Hq. unfold loop. rewrite Hq. reflexivity.
  - exact (inv_interval s R).
Qed.

(** ** One worker *)

Lemma sending_loop_down (s : state) :
  sending s = true -> sending (loop s) = false ->
  queue s = [] /\ loop s = set_sending false s.
Proof.
  unfold loop. destruct (queue s) as [| it q]; [auto |].
  cbn zeta. destruct (_ >? 0); cbn; congruence.
Qed.

Lemma sending_after_send_down (it : QueueItem) (net : fetch_result) (s : state) :
  sending s = true -> sending (after_send it net s) = false ->
  queue s = [] /\ queue (after_send it net s) = [] /\
  active (after_send it net s) = active s.
Proof.
  unfold after_send.
  destruct (sendToExpo (token it) (payload it) net) as [out [err | []]].
  - cbn. congruence.
  - destruct (_ && _).
    + cbn. congruence.
    + intros Hs Hd. apply sending_loop_down in Hd as [Hq ->]; [| exact Hs].
      cbn in *. auto.
Qed.

Lemma enqueue_while_sending (tokens : list json) (pl : json) (s : state) :
  sending s = true -> enqueue tokens pl s = push_all tokens pl s.
Proof. intros H. unfold enqueue, processQueue. cbn. rewrite H. reflexivity. Qed.

Lemma server_sending (req : request) (s : state) :
  sending s = true -> sending (snd (server req s)) = true.
Proof.
  intros Hs. rewrite server_state.
  destruct (pathname req) as [perr | path]; [exact Hs |].
  destruct (_ && _); [exact Hs |].
  destruct (_ && _); [| exact Hs].
  destruct (settled (parseBody req)) as [err | body]; [exact Hs |].
  unfold push_route.
  destruct (outcome (get_prop body "to")) as [err | to]; [exact Hs |].
  destruct (List.length (normalizeTokens to) =? 0)%nat; [exact Hs |].
  destruct (_ || _); [exact Hs |].
  cbn [snd]. rewrite enqueue_while_sending by exact Hs. exact Hs.
Qed.

Lemma enqueue_starts_worker (tok : json) (tokens : list json) (pl : json) (s : state) :
  sending s = false -> queue s = [] -> active s = [] ->
  sending (enqueue (tok :: tokens) pl s) = true /\
  List.length (active (enqueue (tok :: tokens) pl s)) = 1%nat.
Proof.
  intros Hs Hq Ha. unfold enqueue, processQueue, push_all. cbn.
  rewrite Hs, Hq. cbn. unfold loop. cbn.
  destruct (_ >? 0); cbn; rewrite Ha; auto.
Qed.

(** C3. In every reachable state at most one [processQueue] activation is
    live, and a live activation implies that the [sending] flag is up.
    A call of [enqueue] that finds the flag down raises it and leaves exactly
    one activation; a call that finds it up only appends to the queue. The
    flag goes down in one kind of step only: the worker resumes after a send
    and finds the queue empty, and with that step the worker is gone. *)
Theorem single_worker (s : state) :
  reachable s ->
  (List.length (active s) <= 1)%nat /\
  (active s <> [] -> sending s = true) /\
  (forall tokens pl,
      sending s = false -> tokens <> [] ->
      sending (enqueue tokens pl s) = true /\
      List.length (active (enqueue tokens pl s)) = 1%nat) /\
  (forall tokens pl,
      sending s = true ->
      enqueue tokens pl s = push_all tokens pl s /\
      queue (push_all tokens pl s) =
        queue s ++ map (fun t => {| token := t; payload := pl |}) tokens) /\
  (forall l s',
      step l s = Some s' -> sending s = true -> sending s' = false ->
      (exists i net, l = FetchSettles i net) /\
      queue s = [] /\ queue s' = [] /\ active s' = []).
Proof.
  intros R. apply reachable_invariant in R.
  split; [apply (inv_single s R) |].
  split; [apply (inv_flag s R) |].
  split; [| split].
  - intros tokens pl Hs Hne. destruct tokens as [| tok tokens]; [congruence |].
    apply enqueue_starts_worker.
    + exact Hs.
    + apply (inv_idle s R Hs).
    + apply (invariant_idle_alone s R Hs).
  - intros tokens pl Hs. split; [apply enqueue_while_sending; exact Hs | reflexivity].
  - intros l s' Hstep Hs Hd.
    destruct l as [d | req | tokens pl | i | i net]; cbn in Hstep.
    + destruct (d <? 0); [discriminate |]. injection Hstep as <-.
      cbn in Hd. congruence.
    + apply step_http in Hstep. subst s'.
      rewrite server_sending in Hd by exact Hs. discriminate.
    + injection Hstep as <-. rewrite enqueue_while_sending in Hd by exact Hs.
      cbn in Hd. congruence.
    + destruct (take_nth i (active s)) as [[a rest] |] eqn:Ht; [| discriminate].
      apply take_nth_single in Ht as (Ha & -> & ->); [| apply (inv_single s R)].
      destruct a as [it due | it | due]; try discriminate;
        (destruct (due <=? now s); [| discriminate]); injection Hstep as <-.
      * cbn in Hd. congruence.
      * apply sending_loop_down in Hd as [Hq _]; [| exact Hs].
        cbn in Hq. exfalso. apply (inv_stagger s R due); [| exact Hq].
        rewrite Ha. left. reflexivity.
    + destruct (take_nth i (active s)) as [[a rest] |] eqn:Ht; [| discriminate].
      apply take_nth_single in Ht as (Ha & -> & ->); [| apply (inv_single s R)].
      destruct a as [it due | it | due]; try discriminate.
      injection Hstep as <-.
      apply sending_after_send_down in Hd as (Hq & Hq' & Ha'); [| exact Hs].
      split; [eauto |]. cbn in Hq, Ha'. auto.
Qed.

(** ** A rejected send *)

Lemma server_while_sending (req : request) (s : state) :
  sending s = true ->
  let s' := snd (server req s) in
  sending s' = true /\ active s' = active s /\ trace s' = trace s /\
  lastSent s' = lastSent s /\ now s' = now s /\
  exists more, queue s' = queue s ++ more.
Proof.
  intros Hs. cbv zeta. rewrite server_state.
  assert (Hsame : sending s = true /\ active s = active s /\ trace s = trace s /\
                  lastSent s = lastSent s /\ now s = now s /\
                  exists more, queue s = queue s ++ more).
  { repeat split; try assumption. exists []. rewrite app_nil_r. reflexivity. }
  destruct (pathname req) as [perr | path]; [exact Hsame |].
  destruct (_ && _); [exact Hsame |].
  destruct (_ && _); [| exact Hsame].
  destruct (settled (parseBody req)) as [err | body]; [exact Hsame |].
  unfold push_route.
  destruct (outcome (get_prop body "to")) as [err | to]; [exact Hsame |].
  destruct (List.length (normalizeTokens to) =? 0)%nat; [exact Hsame |].
  destruct (_ || _); [exact Hsame |].
  cbn [snd]. rewrite enqueue_while_sending by exact Hs. cbn.
  repeat split; try assumption. eexists. reflexivity.
Qed.

(** Once the flag is up with no activation left, no step ever sends again:
    requests keep being accepted and only lengthen the queue. *)
Lemma wedged_step (l : label) (s s' : state) :
  wedged s -> step l s = Some s' ->
  wedged s' /\ trace s' = trace s /\ exists more, queue s' = queue s ++ more.
Proof.
  intros [Hs Ha] H.
  assert (Hnil : exists more, queue s = queue s ++ more)
    by (exists []; rewrite app_nil_r; reflexivity).
  destruct l as [d | req | tokens pl | i | i net]; cbn in H.
  - destruct (d <? 0); [discriminate |]. injection H as <-.
    unfold wedged. cbn. auto.
  - apply step_http in H. subst s'.
    destruct (server_while_sending req s Hs) as (H1 & H2 & H3 & _ & _ & H4).
    unfold wedged. rewrite H2. auto.
  - injection H as <-. rewrite enqueue_while_sending by exact Hs.
    unfold wedged. cbn. repeat split; try assumption. eexists. reflexivity.
  - rewrite Ha in H. discriminate.
  - rewrite Ha in H. discriminate.
Qed.

Lemma wedged_run (ls : list label) (s s' : state) :
  wedged s -> run ls s = Some s' ->
  wedged s' /\ trace s' = trace s /\ exists more, queue s' = queue s ++ more.
Proof.
  revert s. induction ls as [| l ls IH]; cbn; intros s W H.
  - injection H as <-. repeat split; try apply W.
    exists []. rewrite app_nil_r. reflexivity.
  - destruct (step l s) as [s1 |] eqn:Hs; [| discriminate].
    destruct (wedged_step l s s1 W Hs) as (W1 & Ht1 & more1 & Hq1).
    destruct (IH s1 W1 H) as (W' & Ht' & more' & Hq').
    repeat split; try apply W'.
    + congruence.
    + exists (more1 ++ more'). rewrite Hq', Hq1, app_assoc. reflexivity.
Qed.

Lemma after_send_rejected (it : QueueItem) (net : fetch_result) (s : state) :
  is_string (token it) = false ->
  after_send it net s =
    write_log [ErrQueue (TypeError "token.substring is not a function")]
      (emit (Settled (now s) (token it) false) (write_log [] s)).
Proof.
  intros Hs. unfold after_send.
  rewrite sendToExpo_non_string by exact Hs. reflexivity.
Qed.

(** C7. The claim is that after a failed send the worker always goes on to
    the next queued item. The code breaks it when the failure is a rejected
    [sendToExpo] (a token that is not a string): [processQueue] has no
    handler around the send, so its activation ends with [sending] still
    true. The [.catch] in [enqueue] keeps the process alive, but from then
    on no run of the system makes another attempt; whatever was queued
    behind the item stays queued, and new requests only add to it. *)
Theorem rejected_send_stops_worker (s : state) (it : QueueItem) (net : fetch_result) :
  reachable s -> active s = [AwaitSend it] -> is_string (token it) = false ->
  exists s1,
    step (FetchSettles 0 net) s = Some s1 /\
    sending s1 = true /\ active s1 = [] /\ queue s1 = queue s /\
    forall ls s2,
      run ls s1 = Some s2 ->
      attempts (trace s2) = attempts (trace s) /\
      sending s2 = true /\ active s2 = [] /\
      exists more, queue s2 = queue s ++ more.
Proof.
  intros R Ha Hs. cbn. rewrite Ha. cbn.
  rewrite after_send_rejected by exact Hs.
  eexists. split; [reflexivity |].
  pose proof (inv_flag s (reachable_invariant s R)) as Hflag.
  rewrite Ha in Hflag. specialize (Hflag ltac:(discriminate)).
  cbn. split; [exact Hflag |]. split; [reflexivity |]. split; [reflexivity |].
  intros ls s2 Hrun.
  apply wedged_run in Hrun as ([W1 W2] & Ht & more & Hq).
  - rewrite Ht. cbn. rewrite attempts_snoc_settled.
    repeat split; try assumption. exists more. exact Hq.
  - split; cbn; [exact Hflag | reflexivity].
Qed.

(** ** Order and completeness of delivery *)

Lemma loop_conserves (s : state) :
  active s = [] ->
  attempts (trace (loop s)) ++ map item_body (pending (loop s)) =
  attempts (trace s) ++ map item_body (queue s).
Proof.
  intros Ha. unfold loop, pending.
  destruct (queue s) as [| it q] eqn:Hq.
  - cbn. rewrite Ha, Hq. reflexivity.
  - cbn zeta. destruct (_ >? 0); cbn; rewrite Ha; cbn.
    + rewrite attempts_snoc_delay. reflexivity.
    + rewrite attempts_app. cbn. rewrite <- app_assoc. reflexivity.
Qed.

Lemma after_send_conserves (it : QueueItem) (net : fetch_result) (s : state) :
  active s = [] ->
  attempts (trace (after_send it net s)) ++
    map item_body (pending (after_send it net s)) =
  attempts (trace s) ++ map item_body (queue s).
Proof.
  intros Ha. unfold after_send.
  destruct (sendToExpo (token it) (payload it) net) as [out [err | []]].
  - unfold pending. cbn. rewrite Ha, attempts_snoc_settled. reflexivity.
  - destruct (_ && _).
    + unfold pending. cbn. rewrite Ha. cbn.
      rewrite attempts_snoc_delay, attempts_snoc_settled. reflexivity.
    + rewrite loop_conserves by (cbn; exact Ha).
      cbn. rewrite attempts_snoc_settled. reflexivity.
Qed.

Lemma enqueue_conserves (tokens : list json) (pl : json) (s : state) :
  invariant s ->
  attempts (trace (enqueue tokens pl s)) ++
    map item_body (pending (enqueue tokens pl s)) =
  (attempts (trace s) ++ map item_body (pending s)) ++
    map (fun t => expo_body t pl) tokens.
Proof.
  intros I. unfold enqueue, processQueue.
  destruct (sending (push_all tokens pl s)) eqn:Hs; cbn in Hs.
  - unfold pending, push_all. cbn.
    rewrite !map_app, map_map, <- !app_assoc. reflexivity.
  - pose proof (invariant_idle_alone s I Hs) as Ha.
    rewrite loop_conserves by (cbn; exact Ha).
    unfold pending. cbn. rewrite Ha. cbn.
    rewrite !map_app, map_map, <- !app_assoc. reflexivity.
Qed.

(** Whatever step is taken, the bodies already sent followed by those still
    to send change only by growing at the far end: nothing is dropped and
    nothing overtakes. Steps of the clock and of the worker add nothing. *)
Lemma step_conserves (l : label) (s s' : state) :
  invariant s -> step l s = Some s' ->
  exists new,
    attempts (trace s') ++ map item_body (pending s') =
    (attempts (trace s) ++ map item_body (pending s)) ++ new /\
    match l with
    | CallEnqueue tokens pl => new = map (fun t => expo_body t pl) tokens
    | Http _ => True
    | _ => new = []
    end.
Proof.
  intros I H. destruct l as [d | req | tokens pl | i | i net]; cbn in H.
  - destruct (d <? 0); [discriminate |]. injection H as <-.
    exists []. rewrite app_nil_r. split; reflexivity.
  - apply step_http in H. subst s'. rewrite server_state.
    assert (Hsame : exists new : list json,
               attempts (trace s) ++ map item_body (pending s) =
               (attempts (trace s) ++ map item_body (pending s)) ++ new /\ True).
    { exists []. rewrite app_nil_r. split; [reflexivity | exact Logic.I]. }
    destruct (pathname req) as [perr | path]; [exact Hsame |].
    destruct (_ && _); [exact Hsame |].
    destruct (_ && _); [| exact Hsame].
    destruct (settled (parseBody req)) as [err | body]; [exact Hsame |].
    unfold push_route.
    destruct (outcome (get_prop body "to")) as [err | to]; [exact Hsame |].
    destruct (List.length (normalizeTokens to) =? 0)%nat; [exact Hsame |].
    destruct (_ || _); [exact Hsame |].
    cbn [snd]. eexists. split; [apply enqueue_conserves; exact I | exact Logic.I].
  - injection H as <-. eexists. split; [apply enqueue_conserves; exact I | reflexivity].
  - destruct (take_nth i (active s)) as [[a rest] |] eqn:Ht; [| discriminate].
    apply take_nth_single in Ht as (Ha & -> & ->); [| apply (inv_single s I)].
    exists []. rewrite app_nil_r. split; [| reflexivity].
    destruct a as [it due | it | due]; try discriminate;
      (destruct (due <=? now s); [| discriminate]); injection H as <-.
    + unfold pending. cbn. rewrite Ha. cbn.
      rewrite attempts_app. cbn. rewrite <- app_assoc. reflexivity.
    + rewrite loop_conserves by reflexivity.
      unfold pending. cbn. rewrite Ha. reflexivity.
  - destruct (take_nth i (active s)) as [[a rest] |] eqn:Ht; [| discriminate].
    apply take_nth_single in Ht as (Ha & -> & ->); [| apply (inv_single s I)].
    exists []. rewrite app_nil_r. split; [| reflexivity].
    destruct a as [it due | it | due]; try discriminate. injection H as <-.
    rewrite after_send_conserves by reflexivity.
    unfold pending. cbn. rewrite Ha. reflexivity.
Qed.

Lemma after_send_resolved (it : QueueItem) (net : fetch_result) (s : state) :
  is_string (token it) = true ->
  after_send it net s =
    let s2 := set_lastSent (now s)
                (emit (Settled (now s) (token it) true)
                   (write_log (output (sendToExpo (token it) (payload it) net)) s)) in
    if (STAGGER_MS >? 0) && negb (List.length (queue s2) =? 0)%nat
    then delay STAGGER_MS AwaitStagger s2
    else loop s2.
Proof.
  intros Hs. unfold after_send.
  pose proof (sendToExpo_string_resolves (token it) (payload it) net Hs) as Ho.
  unfold outcome, output in *.
  destruct (sendToExpo (token it) (payload it) net) as [out r].
  cbn in Ho. subst r. reflexivity.
Qed.

Lemma loop_advanced (s0 s : state) :
  active s = [] -> sending s = true ->
  forallb (fun it => is_string (token it)) (queue s) = true ->
  (3 * List.length (queue s) < work_left s0)%nat ->
  advanced s0 (loop s).
Proof.
  intros Ha Hs Hstr Hlt. unfold loop.
  destruct (queue s) as [| it q] eqn:Hq.
  - constructor.
    + unfold healthy. cbn. discriminate.
    + unfold string_tokens. cbn. rewrite Ha, Hq. reflexivity.
    + unfold work_left at 1. cbn. rewrite Ha, Hq. cbn in *.
      lia.
  - cbn zeta. cbn [List.length] in Hlt.
    destruct (_ >? 0).
    + constructor.
      * unfold healthy. cbn. discriminate.
      * unfold string_tokens. cbn. rewrite Ha. exact Hstr.
      * unfold work_left at 1. cbn [delay suspend emit set_active set_queue active queue].
        lia.
    + constructor.
      * unfold healthy. cbn. discriminate.
      * unfold string_tokens. cbn. rewrite Ha. exact Hstr.
      * unfold work_left at 1.
        cbn [call_sendToExpo suspend emit set_active set_queue active queue].
        lia.
Qed.

(** While the worker is live and every token it has to handle is a string,
    its next resumption happens and leaves less to do. *)
Lemma resume_advances (net : QueueItem -> fetch_result) (s : state) (a : activation) :
  invariant s -> active s = [a] -> string_tokens s = true ->
  exists s', resume net s = Some s' /\ advanced s s' /\ invariant s' /\
             attempts (trace s') ++ map item_body (pending s') =
             attempts (trace s) ++ map item_body (pending s).
Proof.
  intros I Ha Hstr.
  assert (Hflag : sending s = true)
    by (apply (inv_flag s I); rewrite Ha; discriminate).
  assert (Hstep : forall s', resume net s = Some s' ->
                  invariant s' /\
                  attempts (trace s') ++ map item_body (pending s') =
                  attempts (trace s) ++ map item_body (pending s)).
  { intros s' H. unfold resume in H. rewrite Ha in H.
    destruct a as [it due | it | due].
    - cbn [run] in H.
      destruct (step (Tick (Z.max 0 (due - now s))) s) as [s1 |] eqn:H1;
        [| discriminate].
      destruct (step (TimerFires 0) s1) as [s2 |] eqn:H2; [| discriminate].
      injection H as <-.
      pose proof (step_invariant _ _ _ I H1) as I1.
      destruct (step_conserves _ _ _ I H1) as (n1 & C1 & ->).
      destruct (step_conserves _ _ _ I1 H2) as (n2 & C2 & ->).
      rewrite app_nil_r in *. split; [eapply step_invariant; eassumption | congruence].
    - destruct (step_conserves _ _ _ I H) as (n1 & C1 & ->).
      rewrite app_nil_r in *. split; [eapply step_invariant; eassumption | congruence].
    - cbn [run] in H.
      destruct (step (Tick (Z.max 0 (due - now s))) s) as [s1 |] eqn:H1;
        [| discriminate].
      destruct (step (TimerFires 0) s1) as [s2 |] eqn:H2; [| discriminate].
      injection H as <-.
      pose proof (step_invariant _ _ _ I H1) as I1.
      destruct (step_conserves _ _ _ I H1) as (n1 & C1 & ->).
      destruct (step_conserves _ _ _ I1 H2) as (n2 & C2 & ->).
      rewrite app_nil_r in *. split; [eapply step_invariant; eassumption | congruence]. }
  assert (Hex : exists s', resume net s = Some s' /\ advanced s s').
  { unfold string_tokens in Hstr. rewrite Ha in Hstr. cbn in Hstr.
    unfold resume. rewrite Ha.
    destruct a as [it due | it | due].
    - cbn. replace (Z.max 0 (due - now s) <? 0) with false
        by (symmetry; apply Z.ltb_ge; lia).
      cbn. rewrite Ha. cbn.
      replace (due <=? now s + Z.max 0 (due - now s)) with true
        by (symmetry; apply Z.leb_le; lia).
      eexists. split; [reflexivity |].
      constructor.
      + unfold healthy. cbn. discriminate.
      + unfold string_tokens. cbn. exact Hstr.
      + unfold work_left. cbn. rewrite Ha. lia.
    - cbn. rewrite Ha. cbn.
      apply andb_prop in Hstr as [Hit Hq].
      rewrite after_send_resolved by exact Hit.
      eexists. split; [reflexivity |]. cbn zeta.
      destruct (_ && _) eqn:Hst.
      + constructor.
        * unfold healthy. cbn. discriminate.
        * unfold string_tokens. cbn. exact Hq.
        * unfold work_left. cbn. rewrite Ha. lia.
      + apply loop_advanced; [reflexivity | exact Hflag | exact Hq |].
        unfold work_left. rewrite Ha. cbn. lia.
    - cbn. replace (Z.max 0 (due - now s) <? 0) with false
        by (symmetry; apply Z.ltb_ge; lia).
      cbn. rewrite Ha. cbn.
      replace (due <=? now s + Z.max 0 (due - now s)) with true
        by (symmetry; apply Z.leb_le; lia).
      eexists. split; [reflexivity |].
      apply loop_advanced; [reflexivity | exact Hflag | exact Hstr |].
      unfold work_left. rewrite Ha. cbn. lia. }
  destruct Hex as (s' & Hr & Hadv).
  exists s'. destruct (Hstep s' Hr). auto.
Qed.

(** As long as no token is left that is not a string, the worker gets
    through its queue: after at most [work_left] resumptions it has made
    exactly the pending attempts, in queue order, and gone idle. *)
Lemma drain_delivers_all (net : QueueItem -> fetch_result) (fuel : nat) (s : state) :
  invariant s -> healthy s -> string_tokens s = true ->
  (work_left s <= fuel)%nat ->
  let s' := drain net fuel s in
  sending s' = false /\ active s' = [] /\ queue s' = [] /\
  attempts (trace s') = attempts (trace s) ++ map item_body (pending s).
Proof.
  revert s. induction fuel as [| fuel IH]; intros s I Hh Hstr Hfuel.
  - assert (Ha : active s = []).
    { unfold work_left in Hfuel. destruct (active s) as [| [] ?]; [reflexivity | lia ..]. }
    assert (Hq : queue s = []).
    { unfold work_left in Hfuel. destruct (queue s); [reflexivity | cbn in Hfuel; lia]. }
    assert (Hs : sending s = false).
    { destruct (sending s) eqn:E; [| reflexivity]. exfalso. apply Hh; auto. }
    cbn. unfold pending. rewrite Ha, Hq. cbn. rewrite app_nil_r. auto.
  - destruct (active s) as [| a rest] eqn:Ha.
    + assert (Hs : sending s = false).
      { destruct (sending s) eqn:E; [| reflexivity]. exfalso. apply Hh; auto. }
      pose proof (inv_idle s I Hs) as Hq.
      cbn. unfold resume. rewrite Ha. unfold pending. rewrite Ha, Hq. cbn.
      rewrite app_nil_r. auto.
    + assert (rest = []) as ->.
      { pose proof (inv_single s I) as Hl. rewrite Ha in Hl.
        destruct rest; [reflexivity | cbn in Hl; lia]. }
      destruct (resume_advances net s a I Ha Hstr) as (s1 & Hr & [H1 H2 H3] & I1 & Hc).
      cbn [drain]. rewrite Hr.
      specialize (IH s1 I1 H1 H2 ltac:(lia)).
      cbn zeta in IH. destruct IH as (E1 & E2 & E3 & E4).
      repeat split; try assumption.
      rewrite E4. exact Hc.
Qed.

Lemma enqueue_ready (tokens : list json) (pl : json) (s : state) :
  invariant s -> healthy s -> string_tokens s = true ->
  forallb is_string tokens = true ->
  let s' := enqueue tokens pl s in
  healthy s' /\ string_tokens s' = true /\
  (work_left s' <= work_left s + 3 * List.length tokens)%nat.
Proof.
  intros I Hh Hstr Htok.
  assert (Hitems : forallb (fun it => is_string (token it))
                     (map (fun t => {| token := t; payload := pl |}) tokens) = true).
  { rewrite forallb_forall in *. intros it Hin.
    apply in_map_iff in Hin as (t & <- & Hin). cbn. apply Htok. exact Hin. }
  unfold enqueue, processQueue.
  destruct (sending (push_all tokens pl s)) eqn:Hs; cbn in Hs.
  - cbn zeta. split; [| split].
    + unfold healthy. cbn. exact Hh.
    + unfold string_tokens in *. cbn. rewrite app_assoc, forallb_app, Hstr. exact Hitems.
    + unfold work_left. cbn. rewrite length_app, length_map. lia.
  - pose proof (inv_idle s I Hs) as Hq.
    pose proof (invariant_idle_alone s I Hs) as Ha.
    cbn zeta. unfold push_all. rewrite Hq. cbn [app].
    unfold loop. cbn [queue set_sending set_queue].
    destruct tokens as [| t ts]; cbn [map].
    + split; [| split].
      * unfold healthy. cbn. discriminate.
      * unfold string_tokens. cbn. rewrite Ha. reflexivity.
      * unfold work_left. cbn. rewrite Ha. lia.
    + cbn zeta. cbn in Hitems.
      destruct (_ >? 0).
      * split; [| split].
        -- unfold healthy. cbn. discriminate.
        -- unfold string_tokens. cbn. rewrite Ha. exact Hitems.
        -- unfold work_left. cbn. rewrite Ha, Hq, length_map. cbn. lia.
      * split; [| split].
        -- unfold healthy. cbn. discriminate.
        -- unfold string_tokens. cbn. rewrite Ha. exact Hitems.
        -- unfold work_left. cbn. rewrite Ha, Hq, length_map. cbn. lia.
Qed.

(** With nothing but string tokens about, whatever [enqueue] accepts is
    attempted, after everything accepted earlier and in the order given. *)
Lemma enqueue_delivers
    (net : QueueItem -> fetch_result) (tokens : list json) (pl : json) (s : state) :
  invariant s -> healthy s -> string_tokens s = true ->
  forallb is_string tokens = true ->
  let s' := drain net (work_left s + 3 * List.length tokens) (enqueue tokens pl s) in
  sending s' = false /\ active s' = [] /\ queue s' = [] /\
  attempts (trace s') =
    attempts (trace s) ++ map item_body (pending s) ++
    map (fun t => expo_body t pl) tokens.
Proof.
  intros I Hh Hstr Htok.
  destruct (enqueue_ready tokens pl s I Hh Hstr Htok) as (Hh' & Hstr' & Hw).
  pose proof (enqueue_invariant tokens pl s I) as I'.
  destruct (drain_delivers_all net _ _ I' Hh' Hstr' Hw) as (E1 & E2 & E3 & E4).
  cbn zeta. repeat split; try assumption.
  rewrite E4, enqueue_conserves by exact I. rewrite <- app_assoc. reflexivity.
Qed.

(** ** The first send after start-up *)

Lemma loop_sends_at_once (it : QueueItem) (q : list QueueItem) (s : state) :
  queue s = it :: q -> lastSent s + MIN_INTERVAL_MS <= now s ->
  loop s = call_sendToExpo it (set_queue q s).
Proof.
  intros Hq Hle. unfold loop. rewrite Hq. cbn.
  replace (Z.max 0 (lastSent s + MIN_INTERVAL_MS - now s) >? 0) with false.
  - reflexivity.
  - symmetry. rewrite Z.gtb_ltb. apply Z.ltb_ge. lia.
Qed.

Lemma loop_waits (it : QueueItem) (q : list QueueItem) (s : state) :
  queue s = it :: q -> now s < lastSent s + MIN_INTERVAL_MS ->
  loop s = delay (lastSent s + MIN_INTERVAL_MS - now s) (AwaitInterval it)
             (set_queue q s).
Proof.
  intros Hq Hlt. unfold loop. rewrite Hq. cbn.
  replace (Z.max 0 (lastSent s + MIN_INTERVAL_MS - now s))
    with (lastSent s + MIN_INTERVAL_MS - now s) by lia.
  replace (lastSent s + MIN_INTERVAL_MS - now s >? 0) with true.
  - reflexivity.
  - symmetry. rewrite Z.gtb_ltb. apply Z.ltb_lt. lia.
Qed.

(** C10. [lastSent] starts at 0. As long as no attempt has been made it is
    still 0, so when the clock reads at least MIN_INTERVAL_MS the wait
    computed for the first item is 0: the call of [enqueue] that brings the
    first token sends it at once, with no [delay] before it. *)
Theorem first_send_not_delayed
    (s : state) (tok : json) (tokens : list json) (pl : json) :
  reachable s -> attempts (trace s) = [] -> sending s = false ->
  MIN_INTERVAL_MS <= now s ->
  (forall t0, lastSent (initial t0) = 0) /\
  lastSent s = 0 /\
  Z.max 0 (lastSent s + MIN_INTERVAL_MS - now s) = 0 /\
  trace (enqueue (tok :: tokens) pl s) =
    trace s ++ [Attempt (now s) (expo_body tok pl)] /\
  active (enqueue (tok :: tokens) pl s) =
    [AwaitSend {| token := tok; payload := pl |}].
Proof.
  intros R Hatt Hs Hnow. apply reachable_invariant in R.
  assert (Hl : lastSent s = 0).
  { destruct (inv_first s R) as [H | H]; [exact H | congruence]. }
  pose proof (inv_idle s R Hs) as Hq.
  pose proof (invariant_idle_alone s R Hs) as Ha.
  split; [reflexivity |]. split; [exact Hl |]. split; [lia |].
  unfold enqueue, processQueue. cbn. rewrite Hs.
  rewrite (loop_sends_at_once {| token := tok; payload := pl |}
             (map (fun t => {| token := t; payload := pl |}) tokens)).
  - cbn. rewrite Ha. split; reflexivity.
  - cbn. rewrite Hq. reflexivity.
  - cbn. lia.
Qed.

(** ** Acceptance of a request *)

Lemma normalizeTokens_filter (to : option json) :
  normalizeTokens to = filter truthy (to_entries to).
Proof.
  destruct to as [v |]; [| reflexivity].
  destruct v; cbn; try reflexivity;
    match goal with |- context [negb ?b] => destruct b end; reflexivity.
Qed.

Lemma get_prop_outcome (body : json) (k : string) (to : option json) :
  outcome (get_prop body k) = inr to -> to = prop body k.
Proof. destruct body; cbn; congruence. Qed.

(** What [server] does with a POST to /push whose body has parsed. *)
Lemma server_posts (req : request) (body : json) (s : state) :
  posts req body ->
  server req s = (Sent (fst (push_route body s)), snd (push_route body s)).
Proof.
  intros (Hm & Hp & Hb). unfold server. rewrite Hm, Hp, Hb. cbn.
  destruct (push_route body s). reflexivity.
Qed.

Lemma push_route_accepted (body : json) (s : state) :
  res_status (fst (push_route body s)) = 202 ->
  push_route body s =
    (sendJson 202
       (JObj [("queued",
               JNum (Z.of_nat (List.length (normalizeTokens (prop body "to")))))]),
     enqueue (normalizeTokens (prop body "to")) (build_payload body) s).
Proof.
  unfold push_route.
  destruct (outcome (get_prop body "to")) as [err | to] eqn:Hto.
  - cbn. discriminate.
  - apply get_prop_outcome in Hto. subst to.
    destruct (List.length (normalizeTokens (prop body "to")) =? 0)%nat;
      [cbn; discriminate |].
    destruct (_ || _); [cbn; discriminate |]. reflexivity.
Qed.

(** C4, as the code has it. For every accepted POST to /push the tokens are
    the truthy entries of the [to] field, in their order: normalizeTokens
    drops empty strings, null, false and 0. The 202 response reports the
    number of these tokens; [enqueue] appends one queue item per token to the
    tail of the queue and then calls [processQueue]; and after the call the
    bodies sent so far followed by the bodies still to send are what they
    were before, followed by one body per token. *)
Theorem push_accepts_truthy_tokens (req : request) (body : json) (s : state) :
  reachable s -> posts req body ->
  res_status (written (fst (server req s))) = 202 ->
  let tokens := normalizeTokens (prop body "to") in
  let pl := build_payload body in
  tokens = filter truthy (to_entries (prop body "to")) /\
  fst (server req s) =
    Sent (sendJson 202 (JObj [("queued", JNum (Z.of_nat (List.length tokens)))])) /\
  snd (server req s) = processQueue (push_all tokens pl s) /\
  queue (push_all tokens pl s) =
    queue s ++ map (fun t => {| token := t; payload := pl |}) tokens /\
  attempts (trace (snd (server req s))) ++
    map item_body (pending (snd (server req s))) =
  (attempts (trace s) ++ map item_body (pending s)) ++
    map (fun t => expo_body t pl) tokens.
Proof.
  intros R Hp Hst. rewrite (server_posts req body s Hp) in *.
  cbn [fst snd written] in *.
  rewrite (push_route_accepted body s Hst). cbn [fst snd].
  split; [apply normalizeTokens_filter |].
  split; [reflexivity |]. split; [reflexivity |]. split; [reflexivity |].
  apply enqueue_conserves. apply reachable_invariant. exact R.
Qed.

(** ** Validation of a request *)

Lemma push_route_rejected_unchanged (body : json) (s : state) :
  res_status (fst (push_route body s)) = 400 ->
  queue (snd (push_route body s)) = queue s /\
  trace (snd (push_route body s)) = trace s.
Proof.
  unfold push_route.
  destruct (outcome (get_prop body "to")) as [err | to]; [cbn; auto |].
  destruct (List.length (normalizeTokens to) =? 0)%nat; [cbn; auto |].
  destruct (_ || _); [cbn; auto |]. cbn. discriminate.
Qed.

Lemma push_route_no_to (body : json) (s : state) :
  prop body "to" = None ->
  res_status (fst (push_route body s)) = 400 /\
  mentions "to" (error_message (fst (push_route body s))) = true.
Proof.
  intros Hto. unfold push_route.
  destruct body; cbn in *; try rewrite Hto; auto.
Qed.

Lemma push_route_no_title_or_body (body : json) (s : state) :
  prop body "title" = None \/ prop body "body" = None ->
  res_status (fst (push_route body s)) = 400.
Proof.
  intros H. unfold push_route.
  destruct (outcome (get_prop body "to")) as [err | to]; [reflexivity |].
  destruct (List.length (normalizeTokens to) =? 0)%nat; [reflexivity |].
  replace (falsy (prop body "title") || falsy (prop body "body")) with true;
    [reflexivity |].
  destruct H as [-> | ->]; cbn; [reflexivity | rewrite orb_true_r; reflexivity].
Qed.

(** Validation of a POST to /push, from any reachable state:
    a body without [to] gets a 400 whose error message mentions "to";
    a body without [title] or without [body] gets a 400; in both cases
    nothing is queued or sent.
    The body {to:"X", title:"t", body:"b"} gets 202 with {queued: 1}; while
    the worker is in working order and holds string tokens only, running it
    to the end makes the attempts that were pending and then exactly one
    more, whose body carries to = "X" and priority = "high". *)
Lemma push_validation (s : state) (net : QueueItem -> fetch_result) :
  reachable s ->
  (forall req body,
      posts req body -> prop body "to" = None ->
      let r := server req s in
      exists a, fst r = Sent a /\
      res_status a = 400 /\
      mentions "to" (error_message a) = true /\
      queue (snd r) = queue s /\ trace (snd r) = trace s) /\
  (forall req body,
      posts req body -> prop body "title" = None \/ prop body "body" = None ->
      let r := server req s in
      exists a, fst r = Sent a /\
      res_status a = 400 /\
      queue (snd r) = queue s /\ trace (snd r) = trace s) /\
  (forall req,
      posts req doc_single -> healthy s -> string_tokens s = true ->
      let r := server req s in
      fst r = Sent (sendJson 202 (JObj [("queued", JNum 1)])) /\
      attempts (trace (drain net (work_left s + 3) (snd r))) =
        attempts (trace s) ++ map item_body (pending s) ++
        [JObj [("title", JStr "t"); ("body", JStr "b"); ("data", JObj []);
               ("sound", JStr "default"); ("channelId", JStr "default");
               ("priority", JStr "high"); ("to", JStr "X")]]).
Proof.
  intros R. pose proof (reachable_invariant s R) as I.
  split; [| split].
  - intros req body Hp Hto r. subst r. rewrite (server_posts req body s Hp).
    cbn [fst snd].
    destruct (push_route_no_to body s Hto) as [H1 H2].
    destruct (push_route_rejected_unchanged body s H1) as [H3 H4].
    eexists. split; [reflexivity |]. auto.
  - intros req body Hp Hm r. subst r. rewrite (server_posts req body s Hp).
    cbn [fst snd].
    pose proof (push_route_no_title_or_body body s Hm) as H1.
    destruct (push_route_rejected_unchanged body s H1) as [H3 H4].
    eexists. split; [reflexivity |]. auto.
  - intros req Hp Hh Hstr r. subst r. rewrite (server_posts req doc_single s Hp).
    rewrite push_route_accepted by reflexivity.
    cbn [fst snd]. split; [reflexivity |].
    change (normalizeTokens (prop doc_single "to")) with [JStr "X"].
    destruct (enqueue_delivers net [JStr "X"] (build_payload doc_single) s
                I Hh Hstr eq_refl) as (_ & _ & _ & Hd).
    exact Hd.
Qed.
(** ** Oversized bodies *)

Lemma js_length_append (a b : string) :
  js_length (a ++ b)%string = (js_length a + js_length b)%nat.
Proof.
  induction a as [| c a IH]; cbn [String.append js_length]; [reflexivity |].
  rewrite IH. lia.
Qed.

Lemma on_data_oversized (cs : list string) (data : string) :
  Z.of_nat (js_length data) <= 1024 * 16 ->
  1024 * 16 < Z.of_nat (js_length data) + body_length cs ->
  on_data data cs =
    {| parse_calls := []; destroyed := true;
       settled := inl (Error "Payload too large") |}.
Proof.
  revert data. induction cs as [| chunk cs IH]; intros data Hle Hgt;
    cbn [on_data body_length] in *.
  - lia.
  - rewrite js_length_append.
    destruct (Z.of_nat (js_length data + js_length (Buffer_toString chunk))
              >? 1024 * 16) eqn:E.
    + reflexivity.
    + rewrite Z.gtb_ltb in E. apply Z.ltb_ge in E.
      apply IH; rewrite js_length_append; lia.
Qed.

Lemma parseBody_oversized (req : request) :
  1024 * 16 < body_length (chunks req) ->
  parseBody req =
    {| parse_calls := []; destroyed := true;
       settled := inl (Error "Payload too large") |}.
Proof. intros H. unfold parseBody. apply on_data_oversized; cbn; lia. Qed.

(** The answer to an oversized POST to /push is written after
    [req.destroy()]: it does not reach the caller. *)
Lemma oversized_reply_is_lost (req : request) (s : state) :
  method req = "POST" -> pathname req = inr "/push" ->
  1024 * 16 < body_length (chunks req) ->
  fst (server req s) =
    Lost (sendJson 400 (JObj [("error", JStr "Payload too large")])) /\
  received (fst (server req s)) = None.
Proof.
  intros Hm Hp Hbig. unfold server.
  rewrite Hm, Hp, (parseBody_oversized req Hbig). cbn. split; reflexivity.
Qed.


(** ** Stagger *)

Lemma run_app (l1 l2 : list label) (s : state) :
  run (l1 ++ l2) s =
  match run l1 s with
  | Some s' => run l2 s'
  | None => None
  end.
Proof.
  revert s. induction l1 as [| l l1 IH]; intros s; cbn; [reflexivity |].
  destruct (step l s); [apply IH | reflexivity].
Qed.

Lemma step_tick (d : Z) (s : state) :
  0 <= d -> step (Tick d) s = Some (set_now (now s + d) s).
Proof.
  intros H. cbn. replace (d <? 0) with false; [reflexivity |].
  symmetry. apply Z.ltb_ge. exact H.
Qed.

Lemma step_timer_stagger (due : Z) (s : state) :
  active s = [AwaitStagger due] -> due <= now s ->
  step (TimerFires 0) s = Some (loop (set_active [] s)).
Proof.
  intros Ha H. cbn. rewrite Ha. cbn.
  replace (due <=? now s) with true; [reflexivity |].
  symmetry. apply Z.leb_le. exact H.
Qed.

Lemma step_timer_interval (it : QueueItem) (due : Z) (s : state) :
  active s = [AwaitInterval it due] -> due <= now s ->
  step (TimerFires 0) s = Some (call_sendToExpo it (set_active [] s)).
Proof.
  intros Ha H. cbn. rewrite Ha. cbn.
  replace (due <=? now s) with true; [reflexivity |].
  symmetry. apply Z.leb_le. exact H.
Qed.

(** With a stagger shorter than the minimum interval there is a run in
    which the worker, between two sends, sleeps for the stagger and then for
    the rest of the minimum interval. *)
Lemma both_delays_run :
  0 < STAGGER_MS -> STAGGER_MS < MIN_INTERVAL_MS ->
  exists s pre t1 tok b,
    reachable s /\
    trace s = pre ++ [ Settled t1 tok true;
                       Delay t1 STAGGER_MS;
                       Delay (t1 + STAGGER_MS) (MIN_INTERVAL_MS - STAGGER_MS);
                       Attempt (t1 + MIN_INTERVAL_MS) b ].
Proof.
  intros Hpos Hlt.
  set (a := {| token := JStr "A"; payload := JObj [] |}).
  set (b := {| token := JStr "B"; payload := JObj [] |}).
  set (net := Responded 200 (inr ""%string)).
  set (s1 := call_sendToExpo a
               (set_queue [b] (set_sending true (initial MIN_INTERVAL_MS)))).
  set (s2 := delay STAGGER_MS AwaitStagger
               (set_lastSent MIN_INTERVAL_MS
                  (emit (Settled MIN_INTERVAL_MS (JStr "A") true)
                     (write_log (output (sendToExpo (JStr "A") (JObj []) net))
                        (set_active [] s1))))).
  set (s3 := set_now (MIN_INTERVAL_MS + STAGGER_MS) s2).
  set (s4 := delay (MIN_INTERVAL_MS - STAGGER_MS) (AwaitInterval b)
               (set_queue [] (set_active [] s3))).
  set (s5 := set_now (MIN_INTERVAL_MS + STAGGER_MS + (MIN_INTERVAL_MS - STAGGER_MS)) s4).
  set (s6 := call_sendToExpo b (set_active [] s5)).
  assert (H1 : step (CallEnqueue [JStr "A"; JStr "B"] (JObj []))
                    (initial MIN_INTERVAL_MS) = Some s1).
  { unfold step, enqueue, processQueue. cbn -[loop].
    rewrite (loop_sends_at_once a [b]); [reflexivity | reflexivity | cbn; lia]. }
  assert (H2 : step (FetchSettles 0 net) s1 = Some s2).
  { cbn [step]. cbn. rewrite andb_true_r.
    replace (STAGGER_MS >? 0) with true
      by (symmetry; rewrite Z.gtb_ltb; apply Z.ltb_lt; lia).
    reflexivity. }
  assert (H3 : step (Tick STAGGER_MS) s2 = Some s3).
  { rewrite step_tick by lia. reflexivity. }
  assert (H4 : step (TimerFires 0) s3 = Some s4).
  { rewrite (step_timer_stagger (MIN_INTERVAL_MS + STAGGER_MS)); [| reflexivity | cbn; lia].
    f_equal. rewrite (loop_waits b []); [| reflexivity | cbn; lia].
    cbn. unfold s4.
    replace (MIN_INTERVAL_MS + MIN_INTERVAL_MS - (MIN_INTERVAL_MS + STAGGER_MS))
      with (MIN_INTERVAL_MS - STAGGER_MS) by lia.
    reflexivity. }
  assert (H5 : step (Tick (MIN_INTERVAL_MS - STAGGER_MS)) s4 = Some s5).
  { rewrite step_tick by lia. reflexivity. }
  assert (H6 : step (TimerFires 0) s5 = Some s6).
  { apply (step_timer_interval b
             (MIN_INTERVAL_MS + STAGGER_MS + (MIN_INTERVAL_MS - STAGGER_MS)));
      [reflexivity | cbn; lia]. }
  exists s6, [Attempt MIN_INTERVAL_MS (item_body a)], MIN_INTERVAL_MS,
         (JStr "A"), (item_body b).
  split.
  - exists MIN_INTERVAL_MS,
      [ CallEnqueue [JStr "A"; JStr "B"] (JObj []); FetchSettles 0 net;
        Tick STAGGER_MS; TimerFires 0;
        Tick (MIN_INTERVAL_MS - STAGGER_MS); TimerFires 0 ].
    cbn [run]. rewrite H1, H2, H3, H4, H5, H6. reflexivity.
  - cbn.
    replace (MIN_INTERVAL_MS + STAGGER_MS + (MIN_INTERVAL_MS - STAGGER_MS))
      with (MIN_INTERVAL_MS + MIN_INTERVAL_MS) by lia.
    reflexivity.
Qed.

(** Stagger after a send that resolves. In every reachable state:
    (a) when a send to a string token completes while the queue is not
        empty and STAGGER_MS > 0, the worker calls [delay(STAGGER_MS)] and
        takes nothing off the queue;
    (b) that timer cannot fire before it is due, and when it fires the
        worker takes the next item and computes that item's minimum-interval
        wait afresh, sleeping for it as well if it is positive;
    (c) so between a completion and the next send the delays add up: the
        send is no earlier than the completion plus the sum of the delays
        called in between;
    (d) and when 0 < STAGGER_MS < MIN_INTERVAL_MS some run has both delays,
        each positive, between two consecutive sends. *)
Lemma stagger_then_interval_wait (s : state) :
  reachable s ->
  (forall it net s',
      active s = [AwaitSend it] -> is_string (token it) = true ->
      queue s <> [] -> 0 < STAGGER_MS ->
      step (FetchSettles 0 net) s = Some s' ->
      active s' = [AwaitStagger (now s + STAGGER_MS)] /\
      queue s' = queue s /\ lastSent s' = now s /\
      trace s' = trace s ++ [Settled (now s) (token it) true;
                             Delay (now s) STAGGER_MS]) /\
  (forall due s',
      active s = [AwaitStagger due] ->
      step (TimerFires 0) s = Some s' ->
      due <= now s /\
      exists it q,
        queue s = it :: q /\ queue s' = q /\
        let wait := Z.max 0 (lastSent s + MIN_INTERVAL_MS - now s) in
        if wait >? 0
        then active s' = [AwaitInterval it (now s + wait)] /\
             trace s' = trace s ++ [Delay (now s) wait]
        else active s' = [AwaitSend it] /\
             trace s' = trace s ++ [Attempt (now s) (item_body it)]) /\
  (forall pre mid post t1 tok ok t2 b,
      trace s = pre ++ Settled t1 tok ok :: mid ++ Attempt t2 b :: post ->
      forallb is_delay mid = true ->
      t1 + total_delay mid <= t2) /\
  (0 < STAGGER_MS -> STAGGER_MS < MIN_INTERVAL_MS ->
   exists s' pre t1 tok b,
     reachable s' /\
     trace s' = pre ++ [ Settled t1 tok true;
                         Delay t1 STAGGER_MS;
                         Delay (t1 + STAGGER_MS) (MIN_INTERVAL_MS - STAGGER_MS);
                         Attempt (t1 + MIN_INTERVAL_MS) b ]).
Proof.
  intros R. pose proof (reachable_invariant s R) as I.
  split; [| split; [| split]].
  - intros it net s' Ha Hstr Hq Hpos Hstep.
    cbn in Hstep. rewrite Ha in Hstep. cbn in Hstep.
    rewrite after_send_resolved in Hstep by exact Hstr.
    cbn in Hstep.
    replace (STAGGER_MS >? 0) with true in Hstep
      by (symmetry; rewrite Z.gtb_ltb; apply Z.ltb_lt; lia).
    destruct (queue s) as [| x q] eqn:Hqs; [congruence |].
    cbn in Hstep. injection Hstep as <-. cbn.
    rewrite Hqs, <- app_assoc. auto.
  - intros due s' Ha Hstep.
    cbn in Hstep. rewrite Ha in Hstep. cbn in Hstep.
    destruct (due <=? now s) eqn:Hdue; [| discriminate].
    apply Z.leb_le in Hdue. split; [exact Hdue |].
    injection Hstep as <-.
    destruct (queue s) as [| it q] eqn:Hq.
    + exfalso. apply (inv_stagger s I due); [rewrite Ha; left; reflexivity | exact Hq].
    + exists it, q. split; [reflexivity |].
      unfold loop. cbn. rewrite Hq. cbn.
      destruct (_ >? 0); cbn; auto.
  - exact (inv_additive s I).
  - exact both_delays_run.
Qed.


(** C5. The claim is that after a send, with the queue not empty and
    STAGGER_MS > 0, the worker sleeps for the stagger before it goes on to
    the next item. The code does so after a send that resolves
    (stagger_then_interval_wait). It does not after the send for a token
    that is not a string: [sendToExpo] is rejected, the lines after the
    [await] never run, so no [delay] is called and [lastSent] is not
    recorded; the activation is gone, and in no continuation is a delay
    called, an attempt made or the next item taken off the queue. *)
Theorem rejected_send_skips_stagger
    (s : state) (it next : QueueItem) (q : list QueueItem) (net : fetch_result) :
  reachable s -> active s = [AwaitSend it] -> is_string (token it) = false ->
  queue s = next :: q -> 0 < STAGGER_MS ->
  exists s1,
    step (FetchSettles 0 net) s = Some s1 /\
    trace s1 = trace s ++ [Settled (now s) (token it) false] /\
    active s1 = [] /\ lastSent s1 = lastSent s /\
    forall ls s2,
      run ls s1 = Some s2 ->
      trace s2 = trace s1 /\ active s2 = [] /\
      exists more, queue s2 = next :: q ++ more.
Proof.
  intros R Ha Hs Hq Hpos. cbn. rewrite Ha. cbn.
  rewrite after_send_rejected by exact Hs.
  eexists. split; [reflexivity |].
  pose proof (inv_flag s (reachable_invariant s R)) as Hflag.
  rewrite Ha in Hflag. specialize (Hflag ltac:(discriminate)).
  cbn. split; [reflexivity |]. split; [reflexivity |]. split; [reflexivity |].
  intros ls s2 Hrun.
  apply wedged_run in Hrun as ([W1 W2] & Ht & more & Hq2).
  - split; [exact Ht |]. split; [exact W2 |].
    exists more. rewrite Hq2. cbn. rewrite Hq. reflexivity.
  - split; cbn; [exact Hflag | reflexivity].
Qed.

(** C8. The claim is that {to:"X", title:"t", body:"b"} gets 202 with
    {queued: 1} and that exactly one attempt for "X" results. With the
    worker in working order it does (push_validation). Once a rejected
    send has left the worker stuck, with [sending] true and no activation,
    the same request is still answered 202 with {queued: 1} and its item is
    appended to the queue, but in no continuation is another attempt made:
    "X" is never sent. *)
Theorem accepted_token_never_attempted (s : state) (req : request) :
  reachable s -> wedged s -> posts req doc_single ->
  let x := {| token := JStr "X"; payload := build_payload doc_single |} in
  fst (server req s) = Sent (sendJson 202 (JObj [("queued", JNum 1)])) /\
  queue (snd (server req s)) = queue s ++ [x] /\
  forall ls s',
    run ls (snd (server req s)) = Some s' ->
    attempts (trace s') = attempts (trace s) /\
    exists more, queue s' = queue s ++ [x] ++ more.
Proof.
  intros R [Hs Ha] Hp x. rewrite (server_posts req doc_single s Hp).
  rewrite push_route_accepted by reflexivity. cbn [fst snd].
  change (normalizeTokens (prop doc_single "to")) with [JStr "X"].
  rewrite enqueue_while_sending by exact Hs.
  split; [reflexivity |]. split; [reflexivity |].
  intros ls s' Hrun.
  apply wedged_run in Hrun as (_ & Ht & more & Hq).
  - rewrite Ht. split; [reflexivity |].
    exists more. rewrite Hq. cbn. rewrite <- app_assoc. reflexivity.
  - split; cbn; assumption.
Qed.
(** ** Book-keeping along a run *)

Lemma settled_count_app (tr tr' : list event) :
  settled_count (tr ++ tr') = (settled_count tr + settled_count tr')%nat.
Proof.
  induction tr as [| e tr IH]; cbn; [reflexivity |].
  destruct e; cbn; rewrite IH; reflexivity.
Qed.

Lemma last_resolved_snoc (tr : list event) (e : event) :
  last_resolved (tr ++ [e]) =
  match e with
  | Settled t _ true => t
  | _ => last_resolved tr
  end.
Proof. unfold last_resolved. rewrite fold_left_app. reflexivity. Qed.

Lemma chronological_snoc (tr : list event) (e : event) :
  chronological tr -> (forall e', In e' tr -> time_of e' <= time_of e) ->
  chronological (tr ++ [e]).
Proof.
  intros Hc Hall pre e1 mid e2 post H.
  apply snoc_cut_two in H as [(_ & -> & Htr) | [post' [_ Htr]]].
  - apply Hall. rewrite Htr. apply in_or_app. right. left. reflexivity.
  - eapply Hc. exact Htr.
Qed.

Lemma honoured_snoc_attempt (tr : list event) (t2 : Z) (b : json) :
  honoured tr -> (forall t ms, In (Delay t ms) tr -> t + ms <= t2) ->
  honoured (tr ++ [Attempt t2 b]).
Proof.
  intros Hh Hall pre t ms mid t2' b' post H.
  apply snoc_cut_two in H as [(_ & He & Htr) | [post' [_ Htr]]].
  - injection He as <- _. apply Hall.
    rewrite Htr. apply in_or_app. right. left. reflexivity.
  - eapply Hh. exact Htr.
Qed.

Lemma honoured_snoc_other (tr : list event) (e : event) :
  honoured tr -> (forall t b, e <> Attempt t b) -> honoured (tr ++ [e]).
Proof.
  intros Hh Hne pre t ms mid t2 b post H.
  apply snoc_cut_two in H as [(_ & He & _) | [post' [_ Htr]]].
  - exfalso. eapply Hne. exact He.
  - eapply Hh. exact Htr.
Qed.

Lemma ledger_at_mono (fl : nat) (hz hz' : Z) (s : state) :
  ledger_at fl hz s -> hz <= hz' -> ledger_at fl hz' s.
Proof.
  intros [] Hle. constructor; try assumption.
  - intros t ms H. apply led_delays0 in H. lia.
  - lia.
Qed.

Lemma ledger_initial (t0 : Z) : ledger (initial t0).
Proof.
  constructor; cbn; try tauto; try reflexivity.
  - intros pre e1 mid e2 post H. destruct pre; discriminate.
  - intros pre t ms mid t2 b post H. destruct pre; discriminate.
  - unfold horizon. cbn. lia.
Qed.

Lemma ledger_at_emit_attempt (it : QueueItem) (s : state) :
  ledger_at 0 (now s) s ->
  ledger_at 1 (now s) (emit (Attempt (now s) (item_body it)) s).
Proof.
  intros []. constructor; cbn [trace emit now lastSent set_lastSent].
  - rewrite attempts_app, length_app, led_outstanding0. cbn.
    rewrite settled_count_app. cbn. lia.
  - intros e H. apply in_snoc in H as [H | ->]; [auto | cbn; lia].
  - apply chronological_snoc; assumption.
  - intros t ms H. apply in_snoc in H as [H | H]; [auto | discriminate].
  - apply honoured_snoc_attempt; assumption.
  - rewrite last_resolved_snoc. assumption.
  - lia.
Qed.

Lemma ledger_at_emit_delay (ms : Z) (s : state) :
  ledger_at 0 (now s) s -> 0 <= ms ->
  ledger_at 0 (now s + ms) (emit (Delay (now s) ms) s).
Proof.
  intros [] Hms. constructor; cbn [trace emit now lastSent set_lastSent].
  - rewrite attempts_snoc_delay, settled_count_app. cbn. lia.
  - intros e H. apply in_snoc in H as [H | ->]; [auto | cbn; lia].
  - apply chronological_snoc; assumption.
  - intros t ms' H. apply in_snoc in H as [H | H].
    + apply led_delays0 in H. lia.
    + injection H as -> ->. lia.
  - apply honoured_snoc_other; [assumption | discriminate].
  - rewrite last_resolved_snoc. assumption.
  - lia.
Qed.

Lemma ledger_at_emit_settled (tok : json) (ok : bool) (s : state) :
  ledger_at 1 (now s) s ->
  ledger_at 0 (now s)
    (set_lastSent (if ok then now s else lastSent s)
       (emit (Settled (now s) tok ok) s)).
Proof.
  intros []. constructor; cbn [trace emit now lastSent set_lastSent].
  - rewrite attempts_snoc_settled, settled_count_app. cbn. lia.
  - intros e H. apply in_snoc in H as [H | ->]; [auto | cbn; lia].
  - apply chronological_snoc; assumption.
  - intros t ms H. apply in_snoc in H as [H | H]; [auto | discriminate].
  - apply honoured_snoc_other; [assumption | discriminate].
  - rewrite last_resolved_snoc. destruct ok; [reflexivity | assumption].
  - lia.
Qed.

(** The ledger does not look at queue, flag, activations or console. *)
Lemma ledger_at_frame (fl : nat) (hz : Z) (s s' : state) :
  trace s' = trace s -> now s' = now s -> lastSent s' = lastSent s ->
  ledger_at fl hz s -> ledger_at fl hz s'.
Proof.
  intros Ht Hn Hl []. constructor; rewrite ?Ht, ?Hn, ?Hl; assumption.
Qed.

Lemma call_sendToExpo_ledger (it : QueueItem) (s : state) :
  active s = [] -> ledger_at 0 (now s) s -> ledger (call_sendToExpo it s).
Proof.
  intros Ha L. unfold ledger, call_sendToExpo, suspend. cbn.
  rewrite Ha. cbn. unfold horizon. cbn. rewrite Z.max_id.
  eapply ledger_at_frame; [| | | apply (ledger_at_emit_attempt it s L)];
    reflexivity.
Qed.

Lemma delay_ledger (ms : Z) (k : Z -> activation) (s : state) :
  active s = [] -> ledger_at 0 (now s) s -> 0 <= ms ->
  (forall d, horizon (set_active [k d] s) = d) -> (forall d, in_flight [k d] = O) ->
  ledger (delay ms k s).
Proof.
  intros Ha L Hms Hk Hf. unfold ledger.
  assert (E1 : active (delay ms k s) = [k (now s + ms)])
    by (unfold delay, suspend; cbn; rewrite Ha; reflexivity).
  assert (E3 : horizon (delay ms k s) = now s + ms).
  { unfold horizon. rewrite E1. specialize (Hk (now s + ms)).
    unfold horizon in Hk. cbn in Hk. exact Hk. }
  rewrite E1, E3, Hf.
  change (now (delay ms k s)) with (now s).
  rewrite Z.max_r by lia.
  eapply ledger_at_frame; [| | | apply (ledger_at_emit_delay ms s L Hms)];
    reflexivity.
Qed.

Lemma loop_ledger (s : state) :
  active s = [] -> ledger_at 0 (now s) s -> ledger (loop s).
Proof.
  intros Ha L. unfold loop.
  destruct (queue s) as [| it q] eqn:Hq.
  - unfold ledger. cbn. rewrite Ha. unfold horizon. cbn. rewrite Ha, Z.max_id.
    eapply ledger_at_frame; [| | | exact L]; reflexivity.
  - cbn zeta.
    destruct (Z.max 0 (lastSent (set_queue q s) + MIN_INTERVAL_MS
                       - now (set_queue q s)) >? 0) eqn:Hw.
    + apply delay_ledger; cbn; try assumption; try reflexivity; try lia.
      eapply ledger_at_frame; [| | | exact L]; reflexivity.
    + apply call_sendToExpo_ledger; [exact Ha |].
      eapply ledger_at_frame; [| | | exact L]; reflexivity.
Qed.

Lemma after_send_ledger (it : QueueItem) (net : fetch_result) (s : state) :
  active s = [] -> ledger_at 1 (now s) s -> ledger (after_send it net s).
Proof.
  intros Ha L. unfold after_send.
  destruct (sendToExpo (token it) (payload it) net) as [out [err | []]].
  - pose proof (ledger_at_emit_settled (token it) false s L) as L'.
    unfold ledger. cbn. rewrite Ha. unfold horizon. cbn. rewrite Ha, Z.max_id.
    eapply ledger_at_frame; [| | | exact L']; reflexivity.
  - pose proof (ledger_at_emit_settled (token it) true s L) as L'.
    set (s2 := set_lastSent (now s)
                 (emit (Settled (now s) (token it) true) (write_log out s))).
    assert (L2 : ledger_at 0 (now s2) s2)
      by (eapply ledger_at_frame; [| | | exact L']; reflexivity).
    destruct ((STAGGER_MS >? 0) && negb (List.length (queue s2) =? 0)%nat) eqn:Hst.
    + apply andb_prop in Hst as [Hpos _]. rewrite Z.gtb_ltb in Hpos.
      apply Z.ltb_lt in Hpos.
      apply delay_ledger; try assumption; try reflexivity; lia.
    + apply loop_ledger; assumption.
Qed.

Lemma ledger_idle (s : state) :
  active s = [] -> ledger s -> ledger_at 0 (now s) s.
Proof.
  intros Ha L. unfold ledger, horizon in L. rewrite Ha in L. cbn in L.
  rewrite Z.max_id in L. exact L.
Qed.

Lemma ledger_same_worker (s s' : state) :
  trace s' = trace s -> now s' = now s -> lastSent s' = lastSent s ->
  active s' = active s -> ledger s -> ledger s'.
Proof.
  intros Ht Hn Hl Ha L. unfold ledger, horizon in *. rewrite Ha, Hn.
  eapply ledger_at_frame; eassumption.
Qed.

Lemma enqueue_ledger (tokens : list json) (pl : json) (s : state) :
  invariant s -> ledger s -> ledger (enqueue tokens pl s).
Proof.
  intros I L. unfold enqueue, processQueue.
  destruct (sending (push_all tokens pl s)) eqn:Hs; cbn in Hs.
  - eapply ledger_same_worker; [| | | | exact L]; reflexivity.
  - pose proof (invariant_idle_alone s I Hs) as Ha.
    apply loop_ledger; [exact Ha |].
    eapply ledger_at_frame; [| | | apply (ledger_idle s Ha L)]; reflexivity.
Qed.

Lemma server_ledger (req : request) (s : state) :
  invariant s -> ledger s -> ledger (snd (server req s)).
Proof.
  intros I L. rewrite server_state.
  destruct (pathname req) as [perr | path]; [exact L |].
  destruct (_ && _); [exact L |].
  destruct (_ && _); [| exact L].
  assert (Hfail : forall err, ledger (snd (handle_failure err s))).
  { intros err. cbn. eapply ledger_same_worker; [| | | | exact L]; reflexivity. }
  destruct (settled (parseBody req)) as [err | body]; [apply Hfail |].
  unfold push_route.
  destruct (outcome (get_prop body "to")) as [err | to]; [apply Hfail |].
  destruct (List.length (normalizeTokens to) =? 0)%nat; [exact L |].
  destruct (_ || _); [exact L |].
  cbn. apply enqueue_ledger; assumption.
Qed.

Lemma step_ledger (l : label) (s s' : state) :
  invariant s -> ledger s -> step l s = Some s' -> ledger s'.
Proof.
  intros I L H. destruct l as [d | req | tokens pl | i | i net]; cbn in H.
  - destruct (d <? 0) eqn:Hd; [discriminate |]. injection H as <-.
    apply Z.ltb_ge in Hd. unfold ledger in *.
    assert (Hh : horizon (set_now (now s + d) s) = horizon s + 
                 match active s with
                 | AwaitInterval _ _ :: _ | AwaitStagger _ :: _ => 0
                 | _ => d
                 end).
    { unfold horizon. cbn. destruct (active s) as [| [] ?]; lia. }
    destruct L. constructor; cbn; try assumption.
    + intros e He. apply led_times0 in He. lia.
    + intros t ms Hin. apply led_delays0 in Hin. rewrite Hh.
      destruct (active s) as [| [] ?]; unfold horizon in *; cbn in *; lia.
    + lia.
  - apply step_http in H. subst s'. apply server_ledger; assumption.
  - injection H as <-. apply enqueue_ledger; assumption.
  - destruct (take_nth i (active s)) as [[a rest] |] eqn:Ht; [| discriminate].
    apply take_nth_single in Ht as (Ha & -> & ->); [| apply (inv_single s I)].
    unfold ledger, horizon in L. rewrite Ha in L.
    destruct a as [it due | it | due]; try discriminate;
      (destruct (due <=? now s) eqn:Hdue; [| discriminate]); injection H as <-;
      apply Z.leb_le in Hdue; cbn in L; rewrite Z.max_l in L by lia.
    + apply call_sendToExpo_ledger; [reflexivity |].
      eapply ledger_at_frame; [| | | exact L]; reflexivity.
    + apply loop_ledger; [reflexivity |].
      eapply ledger_at_frame; [| | | exact L]; reflexivity.
  - destruct (take_nth i (active s)) as [[a rest] |] eqn:Ht; [| discriminate].
    apply take_nth_single in Ht as (Ha & -> & ->); [| apply (inv_single s I)].
    unfold ledger, horizon in L. rewrite Ha in L.
    destruct a as [it due | it | due]; try discriminate. injection H as <-.
    cbn in L. rewrite Z.max_id in L.
    apply after_send_ledger; [reflexivity |].
    eapply ledger_at_frame; [| | | exact L]; reflexivity.
Qed.

Lemma run_ledger (ls : list label) (s s' : state) :
  invariant s -> ledger s -> run ls s = Some s' -> ledger s'.
Proof.
  revert s. induction ls as [| l ls IH]; cbn; intros s I L H.
  - injection H as <-. exact L.
  - destruct (step l s) as [s1 |] eqn:Hs; [| discriminate].
    eapply IH; [| | exact H].
    + eapply step_invariant; eassumption.
    + eapply step_ledger; eassumption.
Qed.

Lemma reachable_ledger (s : state) : reachable s -> ledger s.
Proof.
  intros (t0 & ls & H). eapply run_ledger; [| | exact H].
  - apply invariant_initial.
  - apply ledger_initial.
Qed.

(** ** Tokens *)

Lemma filter_twice {A} (f : A -> bool) (l : list A) :
  filter f (filter f l) = filter f l.
Proof.
  induction l as [| x l IH]; cbn; [reflexivity |].
  destruct (f x) eqn:E; cbn; rewrite ?E, IH; reflexivity.
Qed.

(** X1. normalizeTokens returns truthy values only, never more than the
    [to] field has entries, and normalising its own result changes
    nothing. *)
Theorem normalizeTokens_idempotent (to : option json) :
  Forall (fun v => truthy v = true) (normalizeTokens to) /\
  (List.length (normalizeTokens to) <= List.length (to_entries to))%nat /\
  normalizeTokens (Some (JArr (normalizeTokens to))) = normalizeTokens to.
Proof.
  rewrite normalizeTokens_filter. split; [| split].
  - apply Forall_forall. intros v H. apply filter_In in H. apply H.
  - apply filter_length_le.
  - cbn. apply filter_twice.
Qed.

(** ** Routing and validation *)

Lemma push_route_status (body : json) (s : state) :
  res_status (fst (push_route body s)) = 202 \/
  res_status (fst (push_route body s)) = 400.
Proof.
  unfold push_route.
  destruct (outcome (get_prop body "to")) as [err | to]; [right; reflexivity |].
  destruct (List.length (normalizeTokens to) =? 0)%nat; [right; reflexivity |].
  destruct (_ || _); [right | left]; reflexivity.
Qed.

Lemma push_route_rejected_same (body : json) (s : state) :
  res_status (fst (push_route body s)) <> 202 ->
  same_but_log s (snd (push_route body s)).
Proof.
  unfold push_route, same_but_log.
  destruct (outcome (get_prop body "to")) as [err | to]; [cbn; tauto |].
  destruct (List.length (normalizeTokens to) =? 0)%nat; [cbn; tauto |].
  destruct (_ || _); [cbn; tauto |]. cbn. congruence.
Qed.

Lemma server_not_accepted_same (req : request) (s : state) :
  res_status (written (fst (server req s))) <> 202 ->
  same_but_log s (snd (server req s)).
Proof.
  rewrite server_written, server_state.
  assert (Hsame : same_but_log s s) by (unfold same_but_log; tauto).
  destruct (pathname req) as [perr | path]; [intros _; exact Hsame |].
  destruct (_ && _); [intros _; exact Hsame |].
  destruct (_ && _); [| intros _; exact Hsame].
  destruct (settled (parseBody req)) as [err | body].
  - intros _. unfold same_but_log. cbn. tauto.
  - apply push_route_rejected_same.
Qed.

(** What is passed to [sendJson] reaches the caller unless the body reader
    has destroyed the request. *)
Lemma server_delivery (req : request) (s : state) (path : string) :
  pathname req = inr path ->
  fst (server req s) =
    deliver (String.eqb (method req) "POST" && String.eqb path "/push" &&
             negb (String.eqb (method req) "GET" && String.eqb path "/health") &&
             destroyed (parseBody req))
            (written (fst (server req s))).
Proof.
  intros Hp. unfold server. rewrite Hp.
  destruct (String.eqb (method req) "GET" && String.eqb path "/health");
    [rewrite andb_false_r; reflexivity |].
  destruct (String.eqb (method req) "POST" && String.eqb path "/push");
    [| reflexivity].
  cbn [andb negb].
  destruct (parseBody req) as [calls gone [err | body]] eqn:Hpb; cbn.
  - destruct gone; reflexivity.
  - destruct (push_route body s).
    assert (Hg : gone = false).
    { revert Hpb. unfold parseBody. generalize (chunks req). generalize ""%string.
      intros data cs. revert data. induction cs as [| c cs IH]; intros data; cbn.
      - destruct (String.eqb data ""); intros H; injection H; congruence.
      - destruct (_ >? _); [discriminate | apply IH]. }
    rewrite Hg. reflexivity.
Qed.

Ltac status_cases :=
  repeat split; intros;
  repeat match goal with
         | H : _ /\ _ |- _ => destruct H
         | H : _ \/ _ |- _ => destruct H
         end;
  try discriminate; try lia; try tauto; auto.

(** X2. Whatever the state. When [new URL] throws on the request's URL,
    the handler throws with it: nothing is passed to [sendJson], nothing
    catches the error, and the event loop of the live process has no such
    step. When the URL parses to a path, the handler does not throw; the
    status it passes to [sendJson] is 200 exactly for GET /health, 404
    exactly for what is neither GET /health nor POST /push, and 202 or 400
    for POST /push; and that response reaches the caller unless the body
    reader has destroyed the request. A request that is not answered 202
    leaves queue, flag, [lastSent], worker and trace as they were. *)
Theorem only_accepted_requests_change_state (req : request) (s : state) :
  let r := server req s in
  (forall err,
      pathname req = inl err ->
      r = (Thrown err, s) /\ step (Http req) s = None) /\
  (forall path,
      pathname req = inr path ->
      let health := String.eqb (method req) "GET" && String.eqb path "/health" in
      let push := String.eqb (method req) "POST" && String.eqb path "/push" in
      (forall err, fst r <> Thrown err) /\
      (res_status (written (fst r)) = 200 <-> health = true) /\
      (res_status (written (fst r)) = 404 <-> health = false /\ push = false) /\
      (res_status (written (fst r)) = 202 \/ res_status (written (fst r)) = 400 <->
       health = false /\ push = true) /\
      (fst r = Sent (written (fst r)) \/
       health = false /\ push = true /\ destroyed (parseBody req) = true /\
       fst r = Lost (written (fst r)))) /\
  (res_status (written (fst r)) <> 202 -> same_but_log s (snd r)).
Proof.
  cbn zeta. split; [| split].
  - intros err Hp. unfold step, server. rewrite Hp. split; reflexivity.
  - intros path Hp.
    split; [apply (server_not_thrown req s path Hp) |].
    pose proof (server_delivery req s path Hp) as Hd.
    rewrite server_written in *. rewrite Hp in *.
    destruct (String.eqb (method req) "GET" && String.eqb path "/health").
    + cbn. rewrite andb_false_r in Hd. status_cases.
    + destruct (String.eqb (method req) "POST" && String.eqb path "/push").
      * cbn [andb negb] in Hd.
        assert (Hdel : forall w,
                   fst (server req s) = deliver (destroyed (parseBody req)) w ->
                   fst (server req s) = Sent w \/
                   false = false /\ true = true /\
                   destroyed (parseBody req) = true /\ fst (server req s) = Lost w).
        { intros w Hw. destruct (destroyed (parseBody req)); cbn in Hw; auto. }
        destruct (settled (parseBody req)) as [err | body].
        -- specialize (Hdel _ Hd). cbn in *. status_cases.
        -- specialize (Hdel _ Hd).
           destruct (push_route_status body s) as [E | E]; rewrite E in *;
             status_cases.
      * cbn. status_cases.
  - apply server_not_accepted_same.
Qed.

(** X3. A parsed body is accepted exactly when its [to] field has a truthy
    entry and both [title] and [body] are truthy; every other body, [null]
    and values that are no objects included, is answered 400. The [to]
    field is checked first. *)
Theorem push_accepted_iff (req : request) (body : json) (s : state) :
  posts req body ->
  (res_status (written (fst (server req s))) = 202 <->
   normalizeTokens (prop body "to") <> [] /\
   falsy (prop body "title") = false /\ falsy (prop body "body") = false) /\
  (res_status (written (fst (server req s))) <> 202 ->
   res_status (written (fst (server req s))) = 400) /\
  (normalizeTokens (prop body "to") = [] ->
   mentions "to" (error_message (written (fst (server req s)))) = true) /\
  (is_object body = false -> res_status (written (fst (server req s))) = 400) /\
  fst (server req s) = Sent (written (fst (server req s))).
Proof.
  intros Hp. rewrite (server_posts req body s Hp). cbn [fst snd written].
  split; [| split; [| split; [| split]]].
  - unfold push_route.
    destruct body; cbn;
      try (split; [discriminate | intros [H _]; congruence]).
    destruct (normalizeTokens (assoc "to" fields)) as [| t ts]; cbn.
    + split; [discriminate | intros [H _]; congruence].
    + destruct (falsy (assoc "title" fields)); cbn;
        [split; [discriminate | intros (_ & H & _); discriminate] |].
      destruct (falsy (assoc "body" fields)); cbn.
      * split; [discriminate | intros (_ & _ & H); discriminate].
      * split; [intros _; repeat split; discriminate | reflexivity].
  - destruct (push_route_status body s) as [E | E]; congruence.
  - intros Hto. unfold push_route.
    destruct body; cbn in *; try reflexivity. rewrite Hto. reflexivity.
  - intros Hobj. unfold push_route. destruct body; try discriminate; reflexivity.
  - reflexivity.
Qed.

(** ** Reading the body *)

Lemma string_append_assoc (a b c : string) :
  String.append (String.append a b) c = String.append a (String.append b c).
Proof. induction a as [| x a IH]; cbn; [reflexivity | rewrite IH; reflexivity]. Qed.

Lemma string_append_empty (a : string) : String.append a "" = a.
Proof. induction a as [| x a IH]; cbn; [reflexivity | rewrite IH; reflexivity]. Qed.

Lemma body_text_length (cs : list string) :
  Z.of_nat (js_length (body_text cs)) = body_length cs.
Proof.
  induction cs as [| c cs IH]; cbn [body_text body_length js_length];
    [reflexivity |].
  rewrite js_length_append. lia.
Qed.

Lemma on_data_within_limit (cs : list string) (data : string) :
  Z.of_nat (js_length data) + body_length cs <= 1024 * 16 ->
  on_data data cs = on_data (String.append data (body_text cs)) [].
Proof.
  revert data. induction cs as [| chunk cs IH]; intros data Hle.
  - cbn [body_text]. rewrite string_append_empty. reflexivity.
  - cbn [on_data body_text]. cbn [body_length] in Hle.
    replace (Z.of_nat (js_length (String.append data (Buffer_toString chunk)))
             >? 1024 * 16)
      with false.
    + rewrite IH, string_append_assoc; [reflexivity |].
      rewrite js_length_append. lia.
    + symmetry. rewrite Z.gtb_ltb. apply Z.ltb_ge.
      rewrite js_length_append. pose proof (body_text_length cs). lia.
Qed.

Lemma parseBody_small (req : request) :
  body_length (chunks req) <= 1024 * 16 ->
  parseBody req =
    if String.eqb (body_text (chunks req)) ""
    then {| parse_calls := []; destroyed := false; settled := inr (JObj []) |}
    else {| parse_calls := [body_text (chunks req)]; destroyed := false;
            settled := JSON_parse (body_text (chunks req)) |}.
Proof.
  intros Hle. unfold parseBody.
  rewrite on_data_within_limit by (cbn; lia). reflexivity.
Qed.

(** X4. A body of at most 16 KiB is never turned away for its size: the
    request is not destroyed, and however the body arrives in chunks the
    whole text is handed to [JSON.parse] exactly once and the promise
    settles as the parser says; an empty body counts as the empty object
    without the parser being asked. *)
Theorem parseBody_within_limit (req : request) :
  body_length (chunks req) <= 1024 * 16 ->
  destroyed (parseBody req) = false /\
  (body_text (chunks req) = "" ->
   parse_calls (parseBody req) = [] /\ settled (parseBody req) = inr (JObj [])) /\
  (body_text (chunks req) <> "" ->
   parse_calls (parseBody req) = [body_text (chunks req)] /\
   settled (parseBody req) = JSON_parse (body_text (chunks req))).
Proof.
  intros Hle. rewrite (parseBody_small req Hle).
  destruct (String.eqb (body_text (chunks req)) "") eqn:E; cbn.
  - apply String.eqb_eq in E. repeat split; congruence.
  - apply String.eqb_neq in E. repeat split; congruence.
Qed.

(** X5. [parseBody] depends on a request only through the text its chunks
    decode to, each chunk decoded on its own and appended: two bodies that
    come to the same text give the same calls of [JSON.parse], the same
    [req.destroy()] and the same result, however they are cut into chunks.
    The check of the length after every chunk thus acts as one check on the
    whole text. *)
Theorem parseBody_chunking (req req' : request) :
  body_text (chunks req) = body_text (chunks req') ->
  parseBody req = parseBody req'.
Proof.
  intros Ht.
  assert (Hl : body_length (chunks req) = body_length (chunks req'))
    by (rewrite <- !body_text_length, Ht; reflexivity).
  destruct (Z_le_gt_dec (body_length (chunks req)) (1024 * 16)) as [Hle | Hgt].
  - rewrite (parseBody_small req Hle), (parseBody_small req') by lia.
    rewrite Ht. reflexivity.
  - rewrite (parseBody_oversized req), (parseBody_oversized req') by lia.
    reflexivity.
Qed.

(** X6. When [JSON.parse] throws on the body of a POST to /push, the
    handler answers 400 with the parser's message as the error, logs the
    failure, and queues and sends nothing. *)
Theorem malformed_json_rejected (req : request) (err : exn) (s : state) :
  method req = "POST" -> pathname req = inr "/push" ->
  body_length (chunks req) <= 1024 * 16 -> body_text (chunks req) <> "" ->
  JSON_parse (body_text (chunks req)) = inl err ->
  server req s =
    (Sent (sendJson 400 (JObj [("error", JStr (message err))])),
     write_log [ErrHandle err] s) /\
  parse_calls (parseBody req) = [body_text (chunks req)].
Proof.
  intros Hm Hp Hle Hne Herr.
  pose proof (parseBody_small req Hle) as Hpb.
  apply String.eqb_neq in Hne. rewrite Hne in Hpb.
  split; [| rewrite Hpb; reflexivity].
  unfold server. rewrite Hm, Hp, Hpb. cbn [settled]. rewrite Herr. reflexivity.
Qed.

(** ** What is sent out and what is logged *)

(** X7. For an accepted body the message sent to Expo has exactly the
    fields title, body, data, sound, channelId, priority and to, in that
    order: title and body as given; data, sound and channelId as given when
    truthy and {} / "default" / "default" otherwise; priority always "high";
    to the token. Nothing else in the request body is passed on, and a
    [priority] or [to] of its own is not either. *)
Theorem outbound_body_shape (body tok : json) :
  falsy (prop body "title") = false -> falsy (prop body "body") = false ->
  let out := expo_body tok (build_payload body) in
  field_names out =
    ["title"; "body"; "data"; "sound"; "channelId"; "priority"; "to"] /\
  prop out "title" = prop body "title" /\
  prop out "body" = prop body "body" /\
  prop out "data" = Some (or_default (prop body "data") (JObj [])) /\
  prop out "sound" = Some (or_default (prop body "sound") (JStr "default")) /\
  prop out "channelId" = Some (or_default (prop body "channelId") (JStr "default")) /\
  prop out "priority" = Some (JStr "high") /\
  prop out "to" = Some tok.
Proof.
  intros Ht Hb. unfold build_payload.
  destruct (prop body "title") as [t |]; [| discriminate].
  destruct (prop body "body") as [b |]; [| discriminate].
  cbn. repeat split; reflexivity.
Qed.

Lemma substring_length (n : nat) (s : string) :
  (String.length (substring 0 n s) <= n)%nat.
Proof.
  revert s. induction n as [| n IH]; intros s.
  - destruct s; cbn; lia.
  - destruct s as [| c s]; cbn; [lia |]. specialize (IH s). lia.
Qed.

(** X8. With a string token [sendToExpo] never writes more of the token to
    the console than its first 20 characters, never writes a response body
    that is empty or has 512 characters or more, and suggests backing off
    for status 429 and statuses from 500 on only. *)
Theorem console_output_is_bounded
    (tok : string) (pl : json) (net : fetch_result) (line : logline) :
  In line (output (sendToExpo (JStr tok) pl net)) ->
  match line with
  | LogResponse _ p | ErrSendFailed p _ =>
      p = substring 0 20 tok /\ (String.length p <= 20)%nat
  | LogBody text => (0 < String.length text < 512)%nat
  | WarnBackoff st => 500 <= st \/ st = 429
  | ErrQueue _ | ErrHandle _ => False
  end.
Proof.
  pose proof (substring_length 20 tok) as Hlen.
  unfold sendToExpo, await_fetch, output.
  destruct net as [st [e | text] | e].
  - cbn -[substring]. intros [<- | []]. auto.
  - cbn -[substring when Nat.ltb].
    match goal with
    | |- context [when ?b (console (WarnBackoff _))] => destruct b eqn:Hw
    end;
    match goal with
    | |- context [when ?b (console (LogBody _))] => destruct b eqn:Hb
    end;
    cbn -[substring Nat.ltb]; intros H;
    repeat match goal with
           | H : _ \/ _ |- _ => destruct H as [<- | H]
           | H : False |- _ => destruct H
           end; auto.
    all: try (apply orb_prop in Hw as [Hw | Hw];
              [left; apply Z.geb_le in Hw; lia | right; apply Z.eqb_eq in Hw; lia]).
    all: apply andb_prop in Hb as [Hne Hlt];
      apply Nat.ltb_lt in Hlt; apply negb_true_iff in Hne;
      destruct text; [discriminate | cbn in *; lia].
  - cbn -[substring]. intros [<- | []]. auto.
Qed.

(** ** The worker *)

(** X9. What the network answers to a send has no influence on what the
    worker does next: whether Expo accepts, refuses, asks to back off or
    cannot be reached, the step leaves the same queue, flag, [lastSent],
    activations and trace; only the console output differs. *)
Theorem network_outcome_is_ignored
    (i : nat) (net1 net2 : fetch_result) (s s1 s2 : state) :
  step (FetchSettles i net1) s = Some s1 ->
  step (FetchSettles i net2) s = Some s2 ->
  same_but_log s1 s2.
Proof.
  cbn. destruct (take_nth i (active s)) as [[[it due | it | due] rest] |];
    try discriminate.
  intros H1 H2. injection H1 as <-. injection H2 as <-.
  destruct (is_string (token it)) eqn:Hs.
  - rewrite !after_send_resolved by exact Hs. cbn zeta.
    destruct (_ && _); unfold same_but_log; cbn; [tauto |].
    unfold loop. cbn. destruct (queue s) as [| x q]; cbn; [tauto |].
    destruct (_ >? 0); cbn; tauto.
  - rewrite !after_send_rejected by exact Hs. unfold same_but_log. cbn. tauto.
Qed.

(** X10. In every reachable state the sends started are the sends settled
    plus those the worker is waiting for, and it waits for one at most: a
    send is never started while another is outstanding. *)
Theorem sends_never_overlap (s : state) :
  reachable s ->
  List.length (attempts (trace s)) =
    (settled_count (trace s) + in_flight (active s))%nat /\
  (in_flight (active s) <= 1)%nat.
Proof.
  intros R. split.
  - apply (led_outstanding _ _ _ (reachable_ledger s R)).
  - pose proof (inv_single s (reachable_invariant s R)) as H.
    unfold in_flight. pose proof (filter_length_le
      (fun a => match a with AwaitSend _ => true | _ => false end) (active s)).
    lia.
Qed.

(** X11. In every reachable trace a send that comes after a call of
    [delay] starts no earlier than that delay has run out, be it the
    wait for the minimum interval or the stagger. *)
Theorem delays_are_honoured (s : state) :
  reachable s ->
  forall pre t ms mid t2 b post,
    trace s = pre ++ Delay t ms :: mid ++ Attempt t2 b :: post ->
    t + ms <= t2.
Proof.
  intros R. exact (led_honoured _ _ _ (reachable_ledger s R)).
Qed.

(** X12. In every reachable state [lastSent] is the clock reading at which
    the latest resolved send settled, and 0 while there has been none: it
    is set after every send that resolves, failed or not, and not after a
    rejected one. *)
Theorem lastSent_is_last_resolved (s : state) :
  reachable s -> lastSent s = last_resolved (trace s).
Proof.
  intros R. exact (led_last _ _ _ (reachable_ledger s R)).
Qed.

(** X13. A call of [enqueue] with no tokens changes nothing in a reachable
    state, whether the worker is busy or idle. *)
Theorem enqueue_nothing (pl : json) (s : state) :
  reachable s -> enqueue [] pl s = s.
Proof.
  intros R. apply reachable_invariant in R.
  unfold enqueue, processQueue, push_all. cbn [map].
  rewrite app_nil_r. cbn.
  destruct (sending s) eqn:Hs.
  - destruct s; cbn in *. reflexivity.
  - pose proof (inv_idle s R Hs) as Hq.
    unfold loop. cbn. rewrite Hq.
    destruct s; cbn in *. subst. reflexivity.
Qed.

(** ** From acceptance to delivery *)

Lemma server_status_any_state (req : request) (s s' : state) :
  res_status (written (fst (server req s))) = 202 ->
  res_status (written (fst (server req s'))) = 202.
Proof.
  rewrite !server_written.
  destruct (pathname req) as [perr | path]; [cbn; discriminate |].
  destruct (_ && _); [cbn; discriminate |].
  destruct (_ && _); [| cbn; discriminate].
  destruct (settled (parseBody req)) as [err | body]; [cbn; discriminate |].
  unfold push_route.
  destruct (outcome (get_prop body "to")) as [err | to]; [cbn; discriminate |].
  destruct (List.length (normalizeTokens to) =? 0)%nat; [cbn; discriminate |].
  destruct (_ || _); [cbn; discriminate |]. reflexivity.
Qed.

Lemma step_accepts (l : label) (s s' : state) :
  invariant s -> step l s = Some s' ->
  attempts (trace s') ++ map item_body (pending s') =
  (attempts (trace s) ++ map item_body (pending s)) ++ accepted_bodies l.
Proof.
  intros I H.
  destruct (step_conserves l s s' I H) as (new & Hc & Hnew).
  destruct l as [d | req | tokens pl | i | i net];
    try (cbn [accepted_bodies]; subst new; exact Hc).
  clear new Hc Hnew. apply step_http in H. subst s'.
  destruct (Z.eq_dec (res_status (written (fst (server req s)))) 202) as [E | E].
  - assert (Hposts : exists body, posts req body).
    { revert E. rewrite server_written. unfold posts.
      destruct (pathname req) as [perr | path]; [cbn; discriminate |].
      destruct (String.eqb (method req) "GET" && String.eqb path "/health");
        [cbn; discriminate |].
      destruct (String.eqb (method req) "POST") eqn:Em; [| cbn; discriminate].
      destruct (String.eqb path "/push") eqn:Ep; [| cbn; discriminate].
      apply String.eqb_eq in Em, Ep. subst path.
      destruct (settled (parseBody req)) as [err | body]; [cbn; discriminate |].
      intros _. eauto. }
    destruct Hposts as [body Hp].
    pose proof Hp as (_ & _ & Hb).
    unfold accepted_bodies.
    rewrite Hb, (server_status_any_state req s (initial 0) E), Z.eqb_refl.
    rewrite (server_posts req body s Hp) in *. cbn [fst snd written] in *.
    rewrite (push_route_accepted body s E). cbn [snd].
    apply enqueue_conserves. exact I.
  - assert (Hnone : accepted_bodies (Http req) = []).
    { unfold accepted_bodies. destruct (settled (parseBody req)); [reflexivity |].
      destruct (res_status (written (fst (server req (initial 0)))) =? 202) eqn:E0;
        [| reflexivity].
      apply Z.eqb_eq in E0. exfalso. apply E.
      apply (server_status_any_state req (initial 0) s E0). }
    rewrite Hnone, app_nil_r.
    destruct (server_not_accepted_same req s E) as (Hq & _ & _ & _ & Ha & Ht).
    unfold pending. rewrite <- Hq, <- Ha, <- Ht. reflexivity.
Qed.

Lemma run_accepts (ls : list label) (s0 s : state) :
  invariant s0 -> run ls s0 = Some s ->
  attempts (trace s) ++ map item_body (pending s) =
  (attempts (trace s0) ++ map item_body (pending s0)) ++
  flat_map accepted_bodies ls.
Proof.
  revert s0. induction ls as [| l ls IH]; cbn [run flat_map]; intros s0 I H.
  - injection H as <-. rewrite app_nil_r. reflexivity.
  - destruct (step l s0) as [s1 |] eqn:Hs; [| discriminate].
    rewrite (IH s1 (step_invariant l s0 s1 I Hs) H).
    rewrite (step_accepts l s0 s1 I Hs), <- app_assoc. reflexivity.
Qed.

(** X14. Along every run from start-up, the bodies sent so far followed by
    the bodies still to send are the bodies accepted so far, in the order
    of acceptance: one per token of each request answered 202 (and of each
    direct call of [enqueue]). Nothing accepted is lost, nothing is sent
    twice, nothing overtakes. *)
Theorem accepted_bodies_are_sent_in_order (t0 : Z) (ls : list label) (s : state) :
  run ls (initial t0) = Some s ->
  attempts (trace s) ++ map item_body (pending s) = flat_map accepted_bodies ls.
Proof.
  intros H. rewrite (run_accepts ls (initial t0) s (invariant_initial t0) H).
  reflexivity.
Qed.

(** X15. GET /health is answered 200 with status "ok" and the current
    length of the queue, and changes nothing. After any run from start-up
    that length is the number of bodies accepted less those sent and less
    the one item the worker may be holding back for the minimum interval;
    the item being sent is not counted. *)
Theorem health_reports_queue_depth
    (t0 : Z) (ls : list label) (s : state) (req : request) :
  run ls (initial t0) = Some s ->
  method req = "GET" -> pathname req = inr "/health" ->
  exists depth,
    server req s =
      (Sent (sendJson 200
               (JObj [("status", JStr "ok"); ("queued", JNum (Z.of_nat depth))])),
       s) /\
    (List.length (attempts (trace s)) + List.length (flat_map held (active s))
     + depth = List.length (flat_map accepted_bodies ls))%nat /\
    (List.length (flat_map held (active s)) <= 1)%nat.
Proof.
  intros H Hm Hp. exists (List.length (queue s)).
  split; [unfold server; rewrite Hm, Hp; reflexivity |].
  split.
  - assert (Hc : attempts (trace s) ++ map item_body (pending s) =
                 flat_map accepted_bodies ls)
      by (rewrite (run_accepts ls (initial t0) s (invariant_initial t0) H);
          reflexivity).
    rewrite <- Hc.
    unfold pending. rewrite length_app, length_map, length_app. lia.
  - assert (I : invariant s)
      by (apply reachable_invariant; exists t0, ls; exact H).
    pose proof (inv_single s I) as Hl.
    destruct (active s) as [| a [| b rest]]; cbn in *; try lia.
    destruct a; cbn; lia.
Qed.

(** X16. From a reachable state in which the worker is in working order
    and every token waiting is a string, resuming the worker [work_left]
    times (three times per queued item at most) sends everything pending,
    in order, whatever the network answers; then the queue is empty, no
    activation is left and the flag is down, so the next [enqueue] starts
    the worker again. *)
Theorem string_tokens_all_delivered
    (net : QueueItem -> fetch_result) (s : state) :
  reachable s -> healthy s -> string_tokens s = true ->
  let s' := drain net (work_left s) s in
  attempts (trace s') = attempts (trace s) ++ map item_body (pending s) /\
  queue s' = [] /\ active s' = [] /\ sending s' = false /\
  (work_left s <= 3 * List.length (queue s) + 3)%nat.
Proof.
  intros R Hh Hstr.
  destruct (drain_delivers_all net (work_left s) s
              (reachable_invariant s R) Hh Hstr (Nat.le_refl _))
    as (E1 & E2 & E3 & E4).
  cbn zeta. repeat split; try assumption.
  unfold work_left. destruct (active s) as [| [] ?]; lia.
Qed.

(** ** The immediate variant *)

Lemma fold_left_keeps {A B} (f : A -> B -> A) (P : A -> Prop) (l : list B) (a : A) :
  (forall a b, P a -> P (f a b)) -> P a -> P (fold_left f l a).
Proof.
  intros Hstep. revert a. induction l as [| b l IH]; cbn; intros a Ha.
  - exact Ha.
  - apply IH. apply Hstep. exact Ha.
Qed.

Lemma sendToExpo_outcomes (tok pl : json) (net : fetch_result) :
  (is_string tok = true /\ outcome (sendToExpo tok pl net) = inr tt) \/
  (is_string tok = false /\
   sendToExpo tok pl net =
     ([], inl (TypeError "token.substring is not a function"))).
Proof.
  destruct (is_string tok) eqn:Hs.
  - left. split; [reflexivity |]. apply sendToExpo_string_resolves. exact Hs.
  - right. split; [reflexivity |]. apply sendToExpo_non_string. exact Hs.
Qed.

Lemma existsb_eqb_In (i : nat) (l : list nat) :
  existsb (Nat.eqb i) l = true <-> In i l.
Proof.
  rewrite existsb_exists. split.
  - intros (x & Hin & E). apply Nat.eqb_eq in E. subst. exact Hin.
  - intros Hin. exists i. split; [exact Hin | apply Nat.eqb_refl].
Qed.

(** Which sends have settled after [settle_one]. *)
Lemma settle_one_done (tokens : list json) (pl : json) (nets : nat -> fetch_result)
    (g : gather) (i j : nat) :
  In j (g_done (settle_one tokens pl nets g i)) <->
  In j (g_done g) \/ (j = i /\ (i < List.length tokens)%nat).
Proof.
  unfold settle_one.
  destruct (existsb (Nat.eqb i) (g_done g)) eqn:Ex.
  - apply existsb_eqb_In in Ex. split; [auto |].
    intros [H | [-> _]]; assumption.
  - destruct (nth_error tokens i) as [tok |] eqn:Hn.
    + assert (Hlt : (i < List.length tokens)%nat)
        by (apply nth_error_Some; congruence).
      destruct (sendToExpo tok pl (nets i)) as [out [err | []]];
        destruct (g_res g); cbn; split;
        try (intros [<- | H]; [right; auto | left; exact H]);
        try (intros [H | [-> _]]; [right; exact H | left; reflexivity]).
    + apply nth_error_None in Hn. split; [auto |].
      intros [H | [_ Hlt]]; [exact H | lia].
Qed.

Lemma promise_all_done (tokens : list json) (pl : json) (nets : nat -> fetch_result)
    (order : list nat) (g : gather) (j : nat) :
  In j (g_done (fold_left (settle_one tokens pl nets) order g)) <->
  In j (g_done g) \/ (In j order /\ (j < List.length tokens)%nat).
Proof.
  revert g. induction order as [| i order IH]; cbn [fold_left]; intros g.
  - cbn. tauto.
  - rewrite IH, settle_one_done. cbn. split.
    + intros [[H | [-> Hlt]] | [H Hlt]]; auto.
    + intros [H | [[<- | H] Hlt]]; auto.
Qed.

(** The sends settled are distinct and are sends that were made. *)
Lemma settle_one_sound (tokens : list json) (pl : json) (nets : nat -> fetch_result)
    (g : gather) (i : nat) :
  NoDup (g_done g) /\ (forall j, In j (g_done g) -> (j < List.length tokens)%nat) ->
  NoDup (g_done (settle_one tokens pl nets g i)) /\
  (forall j, In j (g_done (settle_one tokens pl nets g i)) ->
             (j < List.length tokens)%nat).
Proof.
  intros [Hnd Hb]. split.
  - unfold settle_one.
    destruct (existsb (Nat.eqb i) (g_done g)) eqn:Ex; [exact Hnd |].
    assert (Hni : ~ In i (g_done g)).
    { intros Hin. apply existsb_eqb_In in Hin. congruence. }
    destruct (nth_error tokens i) as [tok |]; [| exact Hnd].
    destruct (sendToExpo tok pl (nets i)) as [out [err | []]];
      destruct (g_res g); cbn; constructor; assumption.
  - intros j Hj. apply settle_one_done in Hj as [Hj | [-> Hlt]].
    + apply Hb. exact Hj.
    + exact Hlt.
Qed.

Lemma bounded_nodup_length (n : nat) (l : list nat) :
  NoDup l -> (forall j, In j l -> (j < n)%nat) -> (List.length l <= n)%nat.
Proof.
  intros Hnd Hb. rewrite <- (length_seq n 0).
  apply NoDup_incl_length; [exact Hnd |].
  intros j Hj. apply in_seq. specialize (Hb j Hj). lia.
Qed.

Lemma bounded_nodup_full (n : nat) (l : list nat) :
  NoDup l -> (forall j, In j l -> (j < n)%nat) ->
  (List.length l = n <-> forall j, (j < n)%nat -> In j l).
Proof.
  intros Hnd Hb. split.
  - intros Hlen j Hj.
    assert (Hincl : incl (seq 0 n) l).
    { apply NoDup_length_incl; [exact Hnd | rewrite length_seq; lia |].
      intros k Hk. apply in_seq. specialize (Hb k Hk). lia. }
    apply Hincl. apply in_seq. lia.
  - intros Hall. pose proof (bounded_nodup_length n l Hnd Hb) as Hle.
    assert (Hge : (List.length (seq 0 n) <= List.length l)%nat).
    { apply NoDup_incl_length; [apply seq_NoDup |].
      intros k Hk. apply in_seq in Hk. apply Hall. lia. }
    rewrite length_seq in Hge. lia.
Qed.

(** With string tokens only, [Promise.all] is answered 200 at the moment
    the last send has settled, and not before. *)
Lemma settle_one_strings (tokens : list json) (pl : json) (nets : nat -> fetch_result)
    (g : gather) (i : nat) :
  forallb is_string tokens = true ->
  (NoDup (g_done g) /\
   (forall j, In j (g_done g) -> (j < List.length tokens)%nat) /\
   g_res g =
     if (List.length (g_done g) =? List.length tokens)%nat
     then Some (sendJson 200 (JObj [("sent", JNum (Z.of_nat (List.length tokens)))]))
     else None) ->
  let g' := settle_one tokens pl nets g i in
  NoDup (g_done g') /\
  (forall j, In j (g_done g') -> (j < List.length tokens)%nat) /\
  g_res g' =
    if (List.length (g_done g') =? List.length tokens)%nat
    then Some (sendJson 200 (JObj [("sent", JNum (Z.of_nat (List.length tokens)))]))
    else None.
Proof.
  intros Hstr (Hnd & Hb & Hres).
  destruct (settle_one_sound tokens pl nets g i (conj Hnd Hb)) as [Hnd' Hb'].
  cbn zeta. split; [exact Hnd' |]. split; [exact Hb' |].
  revert Hnd' Hb'. unfold settle_one.
  destruct (existsb (Nat.eqb i) (g_done g)) eqn:Ex; [intros _ _; exact Hres |].
  destruct (nth_error tokens i) as [tok |] eqn:Hn; [| intros _ _; exact Hres].
  assert (Htok : is_string tok = true).
  { rewrite forallb_forall in Hstr. apply Hstr. eapply nth_error_In. exact Hn. }
  pose proof (sendToExpo_string_resolves tok pl (nets i) Htok) as Hok.
  unfold outcome in Hok.
  destruct (sendToExpo tok pl (nets i)) as [out r]. cbn in Hok. subst r.
  destruct (g_res g) as [res |] eqn:Hg; cbn; intros Hnd' Hb'.
  - pose proof (bounded_nodup_length _ _ Hnd' Hb') as Hle. cbn in Hle.
    destruct (List.length (g_done g) =? List.length tokens)%nat eqn:E;
      [| discriminate].
    apply Nat.eqb_eq in E. lia.
  - reflexivity.
Qed.

(** With string tokens only, the answer is 200 once every send has
    settled, and there is none before. *)
Lemma promise_all_strings
    (tokens : list json) (pl : json) (nets : nat -> fetch_result) (order : list nat) :
  tokens <> [] -> forallb is_string tokens = true ->
  let g := promise_all tokens pl nets order in
  ((forall j, (j < List.length tokens)%nat -> In j order) ->
   g_res g =
     Some (sendJson 200 (JObj [("sent", JNum (Z.of_nat (List.length tokens)))]))) /\
  ((exists j, (j < List.length tokens)%nat /\ ~ In j order) -> g_res g = None).
Proof.
  intros Hne Hstr. cbn zeta. unfold promise_all.
  set (start := {| g_done := []; g_log := []; g_res := None |}).
  assert (Hinv :
    let g := fold_left (settle_one tokens pl nets) order start in
    NoDup (g_done g) /\
    (forall j, In j (g_done g) -> (j < List.length tokens)%nat) /\
    g_res g =
      if (List.length (g_done g) =? List.length tokens)%nat
      then Some (sendJson 200 (JObj [("sent", JNum (Z.of_nat (List.length tokens)))]))
      else None).
  { apply (fold_left_keeps (settle_one tokens pl nets)
             (fun g => NoDup (g_done g) /\
                       (forall j, In j (g_done g) -> (j < List.length tokens)%nat) /\
                       g_res g =
                         if (List.length (g_done g) =? List.length tokens)%nat
                         then Some (sendJson 200
                                (JObj [("sent", JNum (Z.of_nat (List.length tokens)))]))
                         else None)).
    - intros g i H. apply settle_one_strings; assumption.
    - cbn. split; [constructor |]. split; [tauto |].
      destruct tokens; [congruence | reflexivity]. }
  cbn zeta in Hinv. destruct Hinv as (Hnd & Hb & Hres).
  pose proof (bounded_nodup_full _ _ Hnd Hb) as Hfull.
  split.
  - intros Hall.
    assert (Hlen : List.length (g_done (fold_left (settle_one tokens pl nets) order start))
                   = List.length tokens).
    { apply Hfull. intros j Hj. apply promise_all_done. right. auto. }
    rewrite Hres, Hlen, Nat.eqb_refl. reflexivity.
  - intros (j & Hj & Hnot).
    rewrite Hres.
    destruct (List.length (g_done (fold_left (settle_one tokens pl nets) order start))
              =? List.length tokens)%nat eqn:E; [| reflexivity].
    apply Nat.eqb_eq in E. exfalso. apply Hnot.
    pose proof (proj1 Hfull E j Hj) as Hin.
    apply promise_all_done in Hin as [[] | [Hin _]]. exact Hin.
Qed.

Lemma settle_one_fault (tokens : list json) (pl : json) (nets : nat -> fetch_result)
    (i0 : nat) (tok0 : json) (g : gather) (i : nat) :
  nth_error tokens i0 = Some tok0 -> is_string tok0 = false ->
  (NoDup (g_done g) /\
   (forall j, In j (g_done g) -> (j < List.length tokens)%nat) /\
   (In i0 (g_done g) ->
    g_res g = Some (sendJson 400
                 (JObj [("error", JStr "token.substring is not a function")]))) /\
   (~ In i0 (g_done g) ->
    g_res g = None \/
    g_res g = Some (sendJson 400
                 (JObj [("error", JStr "token.substring is not a function")])))) ->
  let g' := settle_one tokens pl nets g i in
  NoDup (g_done g') /\
  (forall j, In j (g_done g') -> (j < List.length tokens)%nat) /\
  (In i0 (g_done g') ->
   g_res g' = Some (sendJson 400
                (JObj [("error", JStr "token.substring is not a function")]))) /\
  (~ In i0 (g_done g') ->
   g_res g' = None \/
   g_res g' = Some (sendJson 400
                (JObj [("error", JStr "token.substring is not a function")]))).
Proof.
  intros H0 Hs0 (Hnd & Hb & Hin & Hout).
  destruct (settle_one_sound tokens pl nets g i (conj Hnd Hb)) as [Hnd' Hb'].
  cbn zeta. split; [exact Hnd' |]. split; [exact Hb' |].
  assert (Hlt0 : (i0 < List.length tokens)%nat)
    by (apply nth_error_Some; congruence).
  revert Hnd' Hb'. unfold settle_one.
  destruct (existsb (Nat.eqb i) (g_done g)) eqn:Ex; [intros _ _; auto |].
  assert (Hni : ~ In i (g_done g)).
  { intros H. apply existsb_eqb_In in H. congruence. }
  destruct (nth_error tokens i) as [tok |] eqn:Hn; [| intros _ _; auto].
  destruct (sendToExpo_outcomes tok pl (nets i)) as [[Hs Hok] | [Hs Heq]].
  - (* a string token: the send resolves *)
    assert (Hne : i <> i0) by (intros ->; congruence).
    unfold outcome in Hok.
    destruct (sendToExpo tok pl (nets i)) as [out r]. cbn in Hok. subst r.
    destruct (g_res g) as [res |] eqn:Hg; cbn -[Nat.eqb]; intros Hnd' Hb'.
    + split.
      * intros [E | H]; [congruence | auto].
      * intros H. apply Hout. tauto.
    + split.
      * intros [E | H]; [congruence |]. specialize (Hin H). discriminate.
      * intros Hnot. left.
        replace (S (List.length (g_done g)) =? List.length tokens)%nat with false;
          [reflexivity |].
        symmetry. apply Nat.eqb_neq.
        assert (Hle : (List.length (i0 :: i :: g_done g) <= List.length tokens)%nat).
        { apply bounded_nodup_length.
          - constructor; [exact Hnot | exact Hnd'].
          - intros j [<- | Hj]; [exact Hlt0 | apply Hb'; exact Hj]. }
        cbn in Hle. lia.
  - (* a token that is no string: the send is rejected *)
    rewrite Heq.
    destruct (g_res g) as [res |] eqn:Hg; cbn -[Nat.eqb]; intros Hnd' Hb'.
    + split.
      * intros [E | H]; [| auto].
        subst i. destruct (Hout Hni) as [C | C]; [discriminate | exact C].
      * intros H. apply Hout. tauto.
    + split; [intros _; reflexivity | intros _; right; reflexivity].
Qed.

(** A token that is no string makes the answer 400 as soon as its send
    has settled. *)
Lemma promise_all_non_string
    (tokens : list json) (pl : json) (nets : nat -> fetch_result) (order : list nat)
    (i0 : nat) (tok0 : json) :
  nth_error tokens i0 = Some tok0 -> is_string tok0 = false -> In i0 order ->
  g_res (promise_all tokens pl nets order) =
    Some (sendJson 400 (JObj [("error", JStr "token.substring is not a function")])).
Proof.
  intros H0 Hs0 Hin. unfold promise_all.
  set (start := {| g_done := []; g_log := []; g_res := None |}).
  set (bad := sendJson 400 (JObj [("error", JStr "token.substring is not a function")])).
  assert (Hinv :
    let g := fold_left (settle_one tokens pl nets) order start in
    NoDup (g_done g) /\
    (forall j, In j (g_done g) -> (j < List.length tokens)%nat) /\
    (In i0 (g_done g) -> g_res g = Some bad) /\
    (~ In i0 (g_done g) -> g_res g = None \/ g_res g = Some bad)).
  { apply (fold_left_keeps (settle_one tokens pl nets)
             (fun g => NoDup (g_done g) /\
                       (forall j, In j (g_done g) -> (j < List.length tokens)%nat) /\
                       (In i0 (g_done g) -> g_res g = Some bad) /\
                       (~ In i0 (g_done g) -> g_res g = None \/ g_res g = Some bad))).
    - intros g i H. apply (settle_one_fault tokens pl nets i0 tok0); assumption.
    - cbn. split; [constructor |]. split; [tauto |]. split; [tauto | auto]. }
  cbn zeta in Hinv. destruct Hinv as (_ & _ & Hdone & _).
  apply Hdone. apply promise_all_done. right. split; [exact Hin |].
  apply nth_error_Some. congruence.
Qed.

Lemma server_immediate_accepted
    (req : request) (body : json) (s : state)
    (nets : nat -> fetch_result) (order : list nat) :
  posts req body -> res_status (written (fst (server req s))) = 202 ->
  normalizeTokens (prop body "to") <> [] /\
  server_immediate req nets order =
    {| im_attempts := map (fun t => expo_body t (build_payload body))
                          (normalizeTokens (prop body "to"));
       im_log := g_log (promise_all (normalizeTokens (prop body "to"))
                          (build_payload body) nets order);
       im_response :=
         option_map Sent
           (g_res (promise_all (normalizeTokens (prop body "to"))
                     (build_payload body) nets order)) |}.
Proof.
  intros Hposts. rewrite (server_posts req body s Hposts). cbn [fst written].
  destruct Hposts as (Hm & Hp & Hb). unfold server_immediate, push_route.
  rewrite Hm, Hp, Hb. cbn [String.eqb andb].
  replace (String.eqb "POST" "GET") with false by reflexivity.
  replace (String.eqb "POST" "POST") with true by reflexivity.
  replace (String.eqb "/push" "/push") with true by reflexivity.
  cbn [andb].
  destruct (outcome (get_prop body "to")) as [err | to] eqn:Hto; [cbn; discriminate |].
  apply get_prop_outcome in Hto. subst to.
  destruct (normalizeTokens (prop body "to")) as [| t ts] eqn:Htok;
    [cbn; discriminate |].
  cbn [List.length Nat.eqb].
  destruct (falsy (prop body "title") || falsy (prop body "body"));
    [cbn; discriminate |].
  intros _. split; [discriminate | reflexivity].
Qed.

(** X17. Immediate variant, an accepted request whose tokens are all
    strings: one body per token is handed to [fetch], in the order of the
    tokens; no answer is given while one of the sends has not settled; once
    all have settled the answer is 200 with {sent: number of tokens},
    whatever the network said to each of them. *)
Theorem immediate_answers_after_all_sends
    (req : request) (body : json) (s : state)
    (nets : nat -> fetch_result) (order : list nat) :
  posts req body -> res_status (written (fst (server req s))) = 202 ->
  forallb is_string (normalizeTokens (prop body "to")) = true ->
  let tokens := normalizeTokens (prop body "to") in
  let r := server_immediate req nets order in
  im_attempts r = map (fun t => expo_body t (build_payload body)) tokens /\
  ((forall j, (j < List.length tokens)%nat -> In j order) ->
   im_response r =
     Some (Sent (sendJson 200
                   (JObj [("sent", JNum (Z.of_nat (List.length tokens)))])))) /\
  ((exists j, (j < List.length tokens)%nat /\ ~ In j order) ->
   im_response r = None).
Proof.
  intros Hp Hacc Hstr. cbn zeta.
  destruct (server_immediate_accepted req body s nets order Hp Hacc) as [Hne ->].
  cbn [im_attempts im_response]. split; [reflexivity |].
  destruct (promise_all_strings (normalizeTokens (prop body "to"))
              (build_payload body) nets order Hne Hstr) as [H1 H2].
  split; intros H; [rewrite (H1 H) | rewrite (H2 H)]; reflexivity.
Qed.

(** X18. Immediate variant, an accepted request with a token that is no
    string: every body is still handed to [fetch], those for the string
    tokens included, and as soon as the send for the offending token has
    settled the request is answered 400 with error "token.substring is not
    a function", in whatever order the sends settle. *)
Theorem immediate_fails_on_non_string
    (req : request) (body : json) (s : state)
    (nets : nat -> fetch_result) (order : list nat) (i0 : nat) (tok0 : json) :
  posts req body -> res_status (written (fst (server req s))) = 202 ->
  nth_error (normalizeTokens (prop body "to")) i0 = Some tok0 ->
  is_string tok0 = false -> In i0 order ->
  let r := server_immediate req nets order in
  im_attempts r =
    map (fun t => expo_body t (build_payload body)) (normalizeTokens (prop body "to")) /\
  im_response r =
    Some (Sent (sendJson 400
                  (JObj [("error", JStr "token.substring is not a function")]))).
Proof.
  intros Hp Hacc H0 Hs0 Hin. cbn zeta.
  destruct (server_immediate_accepted req body s nets order Hp Hacc) as [Hne ->].
  cbn [im_attempts im_response]. split; [reflexivity |].
  rewrite (promise_all_non_string _ _ nets order i0 tok0 H0 Hs0 Hin). reflexivity.
Qed.

(** X19. The two variants take the same decisions. When [new URL] throws
    on the request's URL both handlers throw with it before they look at
    the request: neither answers, neither sends. A request the queued
    variant answers 202 makes the immediate variant send exactly the bodies
    the queued variant accepts. Any other request is dealt with by the
    immediate variant at once, without a send, and comes to the same as in
    the queued variant: the same status and, apart from GET /health, the
    same response, reaching the caller or not alike. *)
Theorem variants_agree
    (req : request) (s : state) (nets : nat -> fetch_result) (order : list nat) :
  let q := fst (server req s) in
  let r := server_immediate req nets order in
  (forall err,
      pathname req = inl err ->
      q = Thrown err /\ im_response r = Some (Thrown err) /\ im_attempts r = []) /\
  (res_status (written q) = 202 ->
   im_attempts r = accepted_bodies (Http req) /\ im_attempts r <> []) /\
  (res_status (written q) <> 202 ->
   im_attempts r = [] /\
   exists a, im_response r = Some a /\
             res_status (written a) = res_status (written q) /\
             (received a = None <-> received q = None) /\
             (res_status (written q) <> 200 -> a = q)).
Proof.
  cbn zeta. split; [| split].
  - intros err Hp. unfold server, server_immediate. rewrite Hp.
    repeat split.
  - intros Hacc.
    assert (Hposts : exists body, posts req body).
    { revert Hacc. rewrite server_written. unfold posts.
      destruct (pathname req) as [perr | path]; [cbn; discriminate |].
      destruct (String.eqb (method req) "GET" && String.eqb path "/health");
        [cbn; discriminate |].
      destruct (String.eqb (method req) "POST") eqn:Em; [| cbn; discriminate].
      destruct (String.eqb path "/push") eqn:Ep; [| cbn; discriminate].
      apply String.eqb_eq in Em, Ep. subst path.
      destruct (settled (parseBody req)) as [err | body]; [cbn; discriminate |].
      intros _. eauto. }
    destruct Hposts as [body Hp].
    destruct (server_immediate_accepted req body s nets order Hp Hacc) as [Hne ->].
    cbn [im_attempts]. pose proof Hp as (_ & _ & Hb).
    unfold accepted_bodies.
    rewrite Hb, (server_status_any_state req s (initial 0) Hacc), Z.eqb_refl.
    split; [reflexivity |].
    destruct (normalizeTokens (prop body "to")); [congruence | discriminate].
  - unfold server, server_immediate, push_route.
    assert (Hsame : forall (a : reply) (out : list logline),
               im_attempts (answer out a) = [] /\
               exists a', im_response (answer out a) = Some a' /\
                          res_status (written a') = res_status (written a) /\
                          (received a' = None <-> received a = None) /\
                          (res_status (written a) <> 200 -> a' = a)).
    { intros a out. split; [reflexivity |]. exists a.
      split; [reflexivity |]. split; [reflexivity |].
      split; [tauto | reflexivity]. }
    destruct (pathname req) as [perr | path]; [intros _; apply Hsame |].
    destruct (String.eqb (method req) "GET" && String.eqb path "/health").
    + cbn. intros _. split; [reflexivity |]. eexists. split; [reflexivity |].
      cbn. split; [reflexivity |].
      split; [split; discriminate | congruence].
    + destruct (String.eqb (method req) "POST" && String.eqb path "/push").
      * cbv zeta. destruct (settled (parseBody req)) as [err | body].
        -- intros _. apply Hsame.
        -- destruct (outcome (get_prop body "to")) as [err | to].
           ++ intros _. apply Hsame.
           ++ destruct (List.length (normalizeTokens to) =? 0)%nat.
              ** intros _. apply Hsame.
              ** destruct (falsy (prop body "title") || falsy (prop body "body")).
                 --- intros _. apply Hsame.
                 --- cbn. congruence.
      * intros _. apply Hsame.
Qed.
(** ** Stagger and the order of events *)

(** X20. The stagger goes by the queue, not by the request a token came
    with. Take a send in flight for a string token with nothing queued
    behind it, STAGGER_MS and MIN_INTERVAL_MS positive. When a token is
    accepted while that send is in flight, the worker sleeps for the stagger
    after the send although the two tokens came with different requests.
    When the same token is accepted just after the send has settled, the
    worker has stopped in between and there is no stagger: the new token
    waits for the minimum interval only. (Neither holds when the token in
    flight is not a string: that send is rejected and the worker stops for
    good.) *)
Theorem stagger_goes_by_queue
    (s : state) (it : QueueItem) (tok pl : json) (net : fetch_result) :
  reachable s -> active s = [AwaitSend it] -> is_string (token it) = true ->
  queue s = [] -> 0 < STAGGER_MS -> 0 < MIN_INTERVAL_MS ->
  (exists s2,
      step (FetchSettles 0 net) (enqueue [tok] pl s) = Some s2 /\
      active s2 = [AwaitStagger (now s + STAGGER_MS)] /\
      queue s2 = [{| token := tok; payload := pl |}]) /\
  (exists s1,
      step (FetchSettles 0 net) s = Some s1 /\
      sending s1 = false /\ active s1 = [] /\
      active (enqueue [tok] pl s1) =
        [AwaitInterval {| token := tok; payload := pl |} (now s + MIN_INTERVAL_MS)] /\
      trace (enqueue [tok] pl s1) =
        trace s ++ [Settled (now s) (token it) true;
                    Delay (now s) MIN_INTERVAL_MS]).
Proof.
  intros R Ha Hstr Hq Hst Hmin.
  pose proof (inv_flag s (reachable_invariant s R)) as Hflag.
  rewrite Ha in Hflag. specialize (Hflag ltac:(discriminate)).
  split.
  - rewrite enqueue_while_sending by exact Hflag.
    cbn. rewrite Ha. cbn.
    rewrite after_send_resolved by exact Hstr. cbn.
    rewrite Hq. cbn.
    replace (STAGGER_MS >? 0) with true
      by (symmetry; rewrite Z.gtb_ltb; apply Z.ltb_lt; lia).
    cbn. eexists. split; [reflexivity |]. cbn. rewrite Hq. auto.
  - cbn. rewrite Ha. cbn.
    rewrite after_send_resolved by exact Hstr. cbn.
    rewrite Hq. cbn. rewrite andb_false_r.
    eexists. split; [reflexivity |].
    unfold loop. cbn. rewrite Hq. cbn.
    split; [reflexivity |]. split; [reflexivity |].
    unfold enqueue, processQueue, push_all. cbn.
    rewrite (loop_waits {| token := tok; payload := pl |} []);
      [| cbn; rewrite Hq; reflexivity | cbn; lia].
    cbn. replace (now s + (now s + MIN_INTERVAL_MS - now s))
      with (now s + MIN_INTERVAL_MS) by lia.
    replace (now s + MIN_INTERVAL_MS - now s) with MIN_INTERVAL_MS by lia.
    rewrite <- app_assoc. split; reflexivity.
Qed.

End Proxy.

(** ** The theorems at work

    The examples run the proxy with its default configuration (20 s
    between sends, 3 s stagger) from a clock reading of 100000. *)

Lemma minimum_interval_witness :
  reachable 20000 3000 demo_parse demo_pathname utf8_decode
    (state_of (run 20000 3000 demo_parse demo_pathname utf8_decode
          two_sends (initial 100000))) /\
  (forall pre mid post t1 tok ok t2 b,
      trace (state_of (run 20000 3000 demo_parse demo_pathname utf8_decode
            two_sends (initial 100000))) =
        pre ++ Settled t1 tok ok :: mid ++ Attempt t2 b :: post ->
      t1 + 20000 <= t2).
Proof.
  assert (R : reachable 20000 3000 demo_parse demo_pathname utf8_decode
                (state_of (run 20000 3000 demo_parse demo_pathname utf8_decode
                      two_sends (initial 100000))))
    by (exists 100000, two_sends; vm_compute; reflexivity).
  split; [exact R |].
  exact (proj1 (minimum_interval_between_sends 20000 3000 demo_parse demo_pathname utf8_decode
        _ R)).
Defined.

Lemma single_worker_witness :
  reachable 20000 3000 demo_parse demo_pathname utf8_decode
    (state_of (run 20000 3000 demo_parse demo_pathname utf8_decode
          [Http (post_push doc_two)] (initial 100000))) /\
  (List.length
     (active (state_of (run 20000 3000 demo_parse demo_pathname utf8_decode
           [Http (post_push doc_two)]
                          (initial 100000)))) <= 1)%nat.
Proof.
  assert (R : reachable 20000 3000 demo_parse demo_pathname utf8_decode
                (state_of (run 20000 3000 demo_parse demo_pathname utf8_decode
                      [Http (post_push doc_two)]
                             (initial 100000))))
    by (exists 100000, [Http (post_push doc_two)]; vm_compute; reflexivity).
  split; [exact R |].
  exact (proj1 (single_worker 20000 3000 demo_parse demo_pathname utf8_decode _ R)).
Defined.

Lemma sendToExpo_throws_witness :
  outcome (sendToExpo (JNum 123) (build_payload doc_number)
             (Responded 200 (inr "ok"))) =
    inl (TypeError "token.substring is not a function").
Proof.
  apply (sendToExpo_throws_past_boundary (JNum 123)).
  - reflexivity.
  - reflexivity.
Defined.

Lemma rejected_send_witness :
  exists s1,
    step 20000 3000 demo_parse demo_pathname utf8_decode
          (FetchSettles 0 (Responded 200 (inr "ok")))
      (state_of (run 20000 3000 demo_parse demo_pathname utf8_decode
            [Http (post_push doc_number)]
                   (initial 100000))) = Some s1 /\
    sending s1 = true /\ active s1 = [] /\
    queue s1 = [{| token := JStr "A"; payload := build_payload doc_number |}] /\
    forall ls s2,
      run 20000 3000 demo_parse demo_pathname utf8_decode ls s1 = Some s2 ->
      attempts (trace s2) = [expo_body (JNum 123) (build_payload doc_number)] /\
      sending s2 = true /\ active s2 = [] /\
      exists more,
        queue s2 =
        [{| token := JStr "A"; payload := build_payload doc_number |}] ++ more.
Proof.
  apply (rejected_send_stops_worker 20000 3000 demo_parse demo_pathname utf8_decode
           (state_of (run 20000 3000 demo_parse demo_pathname utf8_decode
                 [Http (post_push doc_number)]
                        (initial 100000)))
           {| token := JNum 123; payload := build_payload doc_number |}
           (Responded 200 (inr "ok"))).
  - exists 100000, [Http (post_push doc_number)]. vm_compute. reflexivity.
  - vm_compute. reflexivity.
  - reflexivity.
Defined.

(** C2. The claim is that every submitted token is attempted, in arrival
    order. The order holds (step_conserves), and with string tokens so does
    the count (drain_delivers_all). The code breaks the count when a token
    is not a string: for the request {to: [123, "A"], title: "t", body: "b"}
    the attempt for 123 is made, its [sendToExpo] is rejected, and the
    worker is gone with [sending] still true. In every continuation of that
    run there is one attempt for the two tokens accepted; "A" stays at the
    head of the queue. *)
Theorem number_token_blocks_queue (ls : list label) (s' : state) :
  run 20000 3000 demo_parse demo_pathname utf8_decode
        (number_first ++ ls) (initial 100000) = Some s' ->
  fst (server 20000 demo_parse demo_pathname utf8_decode (post_push doc_number)
         (initial 100000)) =
    Sent (sendJson 202 (JObj [("queued", JNum 2)])) /\
  attempts (trace s') = [expo_body (JNum 123) (build_payload doc_number)] /\
  sending s' = true /\ active s' = [] /\
  exists more,
    queue s' =
    {| token := JStr "A"; payload := build_payload doc_number |} :: more.
Proof.
  intros H. rewrite run_app in H.
  assert (Hw : run 20000 3000 demo_parse demo_pathname utf8_decode
        number_first (initial 100000) =
               Some (state_of (run 20000 3000 demo_parse demo_pathname utf8_decode
                     number_first
                                 (initial 100000))))
    by (vm_compute; reflexivity).
  rewrite Hw in H.
  apply wedged_run in H as ([W1 W2] & Ht & more & Hq).
  - split; [vm_compute; reflexivity |].
    split; [rewrite Ht; vm_compute; reflexivity |].
    split; [exact W1 |]. split; [exact W2 |].
    exists more. rewrite Hq. reflexivity.
  - split; vm_compute; reflexivity.
Qed.

Lemma number_token_witness :
  attempts
    (trace (state_of (run 20000 3000 demo_parse demo_pathname utf8_decode
          number_first (initial 100000)))) =
    [expo_body (JNum 123) (build_payload doc_number)] /\
  queue (state_of (run 20000 3000 demo_parse demo_pathname utf8_decode
        number_first (initial 100000))) =
    [{| token := JStr "A"; payload := build_payload doc_number |}].
Proof.
  destruct (number_token_blocks_queue []
              (state_of (run 20000 3000 demo_parse demo_pathname utf8_decode
                    number_first (initial 100000))))
    as (_ & Ha & _ & _ & more & Hq).
  - vm_compute. reflexivity.
  - split; [exact Ha |]. vm_compute. reflexivity.
Defined.

Lemma first_send_witness :
  trace (enqueue 20000 [JStr "X"] (build_payload doc_single) (initial 100000)) =
    [Attempt 100000 (expo_body (JStr "X") (build_payload doc_single))].
Proof.
  apply (first_send_not_delayed 20000 3000 demo_parse demo_pathname utf8_decode
        (initial 100000)
           (JStr "X") [] (build_payload doc_single)).
  - exists 100000, []. reflexivity.
  - reflexivity.
  - reflexivity.
  - cbn. lia.
Defined.

(** C4, as stated, fails: the request whose [to] field is the array of
    "A", the empty string and "B" is accepted; the field has three entries,
    the response reports two queued, and two attempts are made. *)
Lemma accepted_count_counterexample :
  posts demo_parse demo_pathname utf8_decode (post_push doc_gap) doc_gap /\
  res_status
    (written (fst (server 20000 demo_parse demo_pathname utf8_decode
                     (post_push doc_gap) (initial 100000)))) = 202 /\
  List.length (to_entries (prop doc_gap "to")) = 3%nat /\
  res_body
    (written (fst (server 20000 demo_parse demo_pathname utf8_decode
                     (post_push doc_gap) (initial 100000)))) =
    JObj [("queued", JNum 2)] /\
  res_body
    (written (fst (server 20000 demo_parse demo_pathname utf8_decode
                     (post_push doc_gap) (initial 100000)))) <>
    JObj [("queued",
           JNum (Z.of_nat (List.length (to_entries (prop doc_gap "to")))))] /\
  attempts (trace (drain 20000 3000 demo_parse demo_pathname utf8_decode
                     (fun _ => Responded 200 (inr "ok")) 6
                     (snd (server 20000 demo_parse demo_pathname utf8_decode
                           (post_push doc_gap)
                             (initial 100000))))) =
    [expo_body (JStr "A") (build_payload doc_gap);
     expo_body (JStr "B") (build_payload doc_gap)].
Proof.
  split; [repeat split; vm_compute; reflexivity |].
  split; [vm_compute; reflexivity |].
  split; [reflexivity |].
  split; [vm_compute; reflexivity |].
  split; [vm_compute; discriminate |].
  vm_compute. reflexivity.
Qed.

Lemma push_accepts_witness :
  fst (server 20000 demo_parse demo_pathname utf8_decode (post_push doc_gap)
         (initial 100000)) =
    Sent (sendJson 202 (JObj [("queued", JNum 2)])) /\
  normalizeTokens (prop doc_gap "to") = [JStr "A"; JStr "B"].
Proof.
  destruct (push_accepts_truthy_tokens 20000 3000 demo_parse demo_pathname utf8_decode
              (post_push doc_gap) doc_gap (initial 100000))
    as (Hf & Hr & _).
  - exists 100000, []. reflexivity.
  - repeat split; vm_compute; reflexivity.
  - vm_compute. reflexivity.
  - split; [exact Hr | vm_compute; reflexivity].
Defined.



(** The 400 for the oversized example is written to a destroyed request. *)
Lemma oversized_reply_example :
  received (fst (server 20000 demo_parse demo_pathname utf8_decode oversized
                   (initial 100000))) = None.
Proof.
  apply (oversized_reply_is_lost 20000 demo_parse demo_pathname utf8_decode
           oversized (initial 100000)).
  - reflexivity.
  - reflexivity.
  - vm_compute. reflexivity.
Defined.

Lemma rejected_send_skips_stagger_witness :
  exists s1,
    step 20000 3000 demo_parse demo_pathname utf8_decode
      (FetchSettles 0 (Responded 200 (inr "ok")))
      (state_of (run 20000 3000 demo_parse demo_pathname utf8_decode
                   [Http (post_push doc_number)] (initial 100000))) = Some s1 /\
    trace s1 =
      [Attempt 100000 (expo_body (JNum 123) (build_payload doc_number));
       Settled 100000 (JNum 123) false] /\
    active s1 = [].
Proof.
  destruct (rejected_send_skips_stagger 20000 3000 demo_parse demo_pathname utf8_decode
              (state_of (run 20000 3000 demo_parse demo_pathname utf8_decode
                           [Http (post_push doc_number)] (initial 100000)))
              {| token := JNum 123; payload := build_payload doc_number |}
              {| token := JStr "A"; payload := build_payload doc_number |}
              [] (Responded 200 (inr "ok")))
    as (s1 & H1 & H2 & H3 & _).
  - exists 100000, [Http (post_push doc_number)]. vm_compute. reflexivity.
  - vm_compute. reflexivity.
  - reflexivity.
  - vm_compute. reflexivity.
  - lia.
  - exists s1. split; [exact H1 |]. split; [| exact H3].
    rewrite H2. vm_compute. reflexivity.
Defined.

Lemma accepted_token_witness :
  fst (server 20000 demo_parse demo_pathname utf8_decode (post_push doc_single)
         (state_of (run 20000 3000 demo_parse demo_pathname utf8_decode number_first
                      (initial 100000)))) =
    Sent (sendJson 202 (JObj [("queued", JNum 1)])) /\
  queue (snd (server 20000 demo_parse demo_pathname utf8_decode (post_push doc_single)
                (state_of (run 20000 3000 demo_parse demo_pathname utf8_decode
                             number_first (initial 100000))))) =
    [{| token := JStr "A"; payload := build_payload doc_number |};
     {| token := JStr "X"; payload := build_payload doc_single |}].
Proof.
  destruct (accepted_token_never_attempted 20000 3000 demo_parse demo_pathname
              utf8_decode
              (state_of (run 20000 3000 demo_parse demo_pathname utf8_decode
                           number_first (initial 100000)))
              (post_push doc_single))
    as (H1 & H2 & _).
  - exists 100000, number_first. vm_compute. reflexivity.
  - split; vm_compute; reflexivity.
  - repeat split; vm_compute; reflexivity.
  - split; [exact H1 |]. rewrite H2. vm_compute. reflexivity.
Defined.

Lemma stagger_witness :
  exists s',
    step 20000 3000 demo_parse demo_pathname utf8_decode
          (FetchSettles 0 (Responded 200 (inr "ok")))
      (state_of (run 20000 3000 demo_parse demo_pathname utf8_decode
            [Http (post_push doc_two)]
                   (initial 100000))) = Some s' /\
    active s' = [AwaitStagger (100000 + 3000)].
Proof.
  eexists. split; [vm_compute; reflexivity |].
  destruct (stagger_then_interval_wait 20000 3000 demo_parse demo_pathname utf8_decode
              (state_of (run 20000 3000 demo_parse demo_pathname utf8_decode
                    [Http (post_push doc_two)]
                           (initial 100000))))
    as (Ha & _).
  - exists 100000, [Http (post_push doc_two)]. vm_compute. reflexivity.
  - destruct (Ha {| token := JStr "A"; payload := build_payload doc_two |}
                (Responded 200 (inr "ok"))
                (state_of (step 20000 3000 demo_parse demo_pathname utf8_decode
                             (FetchSettles 0 (Responded 200 (inr "ok")))
                             (state_of (run 20000 3000 demo_parse demo_pathname utf8_decode
                                          [Http (post_push doc_two)]
                                          (initial 100000))))))
      as (H & _).
    + vm_compute. reflexivity.
    + reflexivity.
    + vm_compute. discriminate.
    + lia.
    + vm_compute. reflexivity.
    + exact H.
Defined.

(** ** Further properties at work *)

Lemma unparsed_url_witness :
  server 20000 demo_parse demo_pathname utf8_decode no_host (initial 100000) =
    (Thrown (TypeError "Invalid URL"), initial 100000) /\
  step 20000 3000 demo_parse demo_pathname utf8_decode (Http no_host)
    (initial 100000) = None.
Proof.
  apply (only_accepted_requests_change_state 20000 3000 demo_parse demo_pathname
           utf8_decode no_host (initial 100000)).
  reflexivity.
Defined.

Lemma push_accepted_witness :
  res_status
    (written (fst (server 20000 demo_parse demo_pathname utf8_decode
                     (post_push doc_single) (initial 100000))))
    = 202 <->
  normalizeTokens (prop doc_single "to") <> [] /\
  falsy (prop doc_single "title") = false /\
  falsy (prop doc_single "body") = false.
Proof.
  apply (push_accepted_iff 20000 demo_parse demo_pathname utf8_decode
        (post_push doc_single) doc_single
           (initial 100000)).
  repeat split; vm_compute; reflexivity.
Defined.

Lemma parseBody_at_limit_witness :
  body_length utf8_decode (chunks at_limit) = 1024 * 16 /\
  destroyed (parseBody demo_parse utf8_decode at_limit) = false.
Proof.
  split; [vm_compute; reflexivity |].
  apply (parseBody_within_limit demo_parse utf8_decode at_limit).
  vm_compute. discriminate.
Defined.

Lemma malformed_json_witness :
  fst (server 20000 demo_parse demo_pathname utf8_decode malformed (initial 100000)) =
    Sent (sendJson 400 (JObj [("error", JStr "Unexpected token")])).
Proof.
  destruct (malformed_json_rejected 20000 demo_parse demo_pathname utf8_decode malformed
              (SyntaxError "Unexpected token") (initial 100000))
    as [H _].
  - reflexivity.
  - reflexivity.
  - vm_compute. discriminate.
  - vm_compute. discriminate.
  - vm_compute. reflexivity.
  - rewrite H. reflexivity.
Defined.

Lemma parseBody_chunking_witness :
  parseBody demo_parse utf8_decode malformed =
  parseBody demo_parse utf8_decode malformed_whole.
Proof.
  apply (parseBody_chunking demo_parse utf8_decode malformed malformed_whole).
  vm_compute. reflexivity.
Defined.

(** A chunk boundary inside a character does change the text: the euro
    sign cut after its second byte decodes to U+FFFD twice. *)
Lemma cut_character_example :
  body_text utf8_decode [euro] = euro /\
  body_text utf8_decode euro_cut = (replacement ++ replacement)%string.
Proof. split; vm_compute; reflexivity. Qed.

Lemma outbound_body_witness :
  field_names (expo_body (JStr "X") (build_payload doc_single)) =
    ["title"; "body"; "data"; "sound"; "channelId"; "priority"; "to"].
Proof.
  apply (outbound_body_shape doc_single (JStr "X")); reflexivity.
Defined.

Lemma console_output_witness :
  "ExponentPushToken[ab" = substring 0 20 expo_token /\
  (String.length "ExponentPushToken[ab" <= 20)%nat.
Proof.
  apply (console_output_is_bounded expo_token (build_payload doc_single)
           (Responded 200 (inr "ok")) (LogResponse 200 "ExponentPushToken[ab")).
  vm_compute. left. reflexivity.
Defined.

Lemma network_outcome_witness :
  same_but_log
    (state_of (step 20000 3000 demo_parse demo_pathname utf8_decode
          (FetchSettles 0 (Responded 200 (inr "ok")))
                 (state_of (run 20000 3000 demo_parse demo_pathname utf8_decode
                       [Http (post_push doc_two)]
                              (initial 100000)))))
    (state_of (step 20000 3000 demo_parse demo_pathname utf8_decode
          (FetchSettles 0 (FetchFailed (Error "network")))
                 (state_of (run 20000 3000 demo_parse demo_pathname utf8_decode
                       [Http (post_push doc_two)]
                              (initial 100000))))).
Proof.
  apply (network_outcome_is_ignored 20000 3000 demo_parse demo_pathname utf8_decode 0
           (Responded 200 (inr "ok")) (FetchFailed (Error "network"))
           (state_of (run 20000 3000 demo_parse demo_pathname utf8_decode
                 [Http (post_push doc_two)]
                        (initial 100000))));
    vm_compute; reflexivity.
Defined.

Lemma sends_never_overlap_witness :
  List.length
    (attempts (trace (state_of (run 20000 3000 demo_parse demo_pathname utf8_decode
          two_sends (initial 100000)))))
  = 2%nat.
Proof.
  destruct (sends_never_overlap 20000 3000 demo_parse demo_pathname utf8_decode
              (state_of (run 20000 3000 demo_parse demo_pathname utf8_decode
                    two_sends (initial 100000))))
    as [H _].
  - exists 100000, two_sends. vm_compute. reflexivity.
  - rewrite H. vm_compute. reflexivity.
Defined.

Lemma delays_are_honoured_witness : 100000 + 3000 <= 120000.
Proof.
  assert (R : reachable 20000 3000 demo_parse demo_pathname utf8_decode
                (state_of (run 20000 3000 demo_parse demo_pathname utf8_decode
                      two_sends (initial 100000))))
    by (exists 100000, two_sends; vm_compute; reflexivity).
  apply (delays_are_honoured 20000 3000 demo_parse demo_pathname utf8_decode _ R
           [Attempt 100000 (expo_body (JStr "A") (build_payload doc_two));
            Settled 100000 (JStr "A") true]
           100000 3000 [Delay 103000 17000] 120000
           (expo_body (JStr "B") (build_payload doc_two))
           [Settled 120000 (JStr "B") true]).
  vm_compute. reflexivity.
Defined.

Lemma lastSent_witness :
  lastSent (state_of (run 20000 3000 demo_parse demo_pathname utf8_decode
        two_sends (initial 100000))) = 120000.
Proof.
  rewrite (lastSent_is_last_resolved 20000 3000 demo_parse demo_pathname utf8_decode).
  - vm_compute. reflexivity.
  - exists 100000, two_sends. vm_compute. reflexivity.
Defined.

Lemma enqueue_nothing_witness :
  enqueue 20000 [] (build_payload doc_single)
    (state_of (run 20000 3000 demo_parse demo_pathname utf8_decode
          [Http (post_push doc_two)] (initial 100000))) =
  state_of (run 20000 3000 demo_parse demo_pathname utf8_decode
        [Http (post_push doc_two)] (initial 100000)).
Proof.
  apply (enqueue_nothing 20000 3000 demo_parse demo_pathname utf8_decode).
  exists 100000, [Http (post_push doc_two)]. vm_compute. reflexivity.
Defined.

Lemma accepted_bodies_witness :
  attempts (trace (state_of (run 20000 3000 demo_parse demo_pathname utf8_decode
        number_first (initial 100000))))
  ++ map item_body
       (pending (state_of (run 20000 3000 demo_parse demo_pathname utf8_decode
             number_first (initial 100000)))) =
  [expo_body (JNum 123) (build_payload doc_number);
   expo_body (JStr "A") (build_payload doc_number)].
Proof.
  rewrite (accepted_bodies_are_sent_in_order 20000 3000 demo_parse demo_pathname utf8_decode
        100000 number_first).
  - vm_compute. reflexivity.
  - vm_compute. reflexivity.
Defined.

Lemma health_witness :
  exists depth,
    server 20000 demo_parse demo_pathname utf8_decode health_check
      (state_of (run 20000 3000 demo_parse demo_pathname utf8_decode
            number_first (initial 100000))) =
    (Sent (sendJson 200
             (JObj [("status", JStr "ok"); ("queued", JNum (Z.of_nat depth))])),
     state_of (run 20000 3000 demo_parse demo_pathname utf8_decode
           number_first (initial 100000))) /\
    (1 + 0 + depth = 2)%nat.
Proof.
  destruct (health_reports_queue_depth 20000 3000 demo_parse demo_pathname utf8_decode
        100000 number_first
              (state_of (run 20000 3000 demo_parse demo_pathname utf8_decode
                    number_first (initial 100000)))
              health_check)
    as (depth & H1 & H2 & _).
  - vm_compute. reflexivity.
  - reflexivity.
  - reflexivity.
  - exists depth. split; [exact H1 |]. exact H2.
Defined.

Lemma string_tokens_delivered_witness :
  attempts
    (trace (drain 20000 3000 demo_parse demo_pathname utf8_decode
          (fun _ => FetchFailed (Error "network")) 5
              (state_of (run 20000 3000 demo_parse demo_pathname utf8_decode
                    [Http (post_push doc_two)]
                           (initial 100000))))) =
  [expo_body (JStr "A") (build_payload doc_two);
   expo_body (JStr "B") (build_payload doc_two)].
Proof.
  destruct (string_tokens_all_delivered 20000 3000 demo_parse demo_pathname utf8_decode
              (fun _ => FetchFailed (Error "network"))
              (state_of (run 20000 3000 demo_parse demo_pathname utf8_decode
                    [Http (post_push doc_two)]
                           (initial 100000))))
    as (H & _).
  - exists 100000, [Http (post_push doc_two)]. vm_compute. reflexivity.
  - intros _. vm_compute. discriminate.
  - vm_compute. reflexivity.
  - exact H.
Defined.

Lemma immediate_all_sent_witness :
  im_response
    (server_immediate demo_parse demo_pathname utf8_decode (post_push doc_two)
       (fun _ => FetchFailed (Error "network")) [1%nat; 0%nat]) =
  Some (Sent (sendJson 200 (JObj [("sent", JNum 2)]))).
Proof.
  destruct (immediate_answers_after_all_sends 20000 demo_parse demo_pathname utf8_decode
              (post_push doc_two) doc_two (initial 100000)
              (fun _ => FetchFailed (Error "network")) [1%nat; 0%nat])
    as (_ & H & _).
  - repeat split; vm_compute; reflexivity.
  - vm_compute. reflexivity.
  - vm_compute. reflexivity.
  - apply H. vm_compute. intros j Hj.
    destruct j as [| [| j]]; [right; left; reflexivity | left; reflexivity | lia].
Defined.

Lemma immediate_non_string_witness :
  im_response
    (server_immediate demo_parse demo_pathname utf8_decode (post_push doc_number)
       (fun _ => Responded 200 (inr "ok")) [1%nat; 0%nat]) =
  Some (Sent (sendJson 400
                (JObj [("error", JStr "token.substring is not a function")]))).
Proof.
  apply (immediate_fails_on_non_string 20000 demo_parse demo_pathname utf8_decode
           (post_push doc_number) doc_number (initial 100000)
           (fun _ => Responded 200 (inr "ok")) [1%nat; 0%nat] 0%nat (JNum 123)).
  - repeat split; vm_compute; reflexivity.
  - vm_compute. reflexivity.
  - vm_compute. reflexivity.
  - reflexivity.
  - right. left. reflexivity.
Defined.

Lemma variants_agree_witness :
  fst (server 20000 demo_parse demo_pathname utf8_decode no_host (initial 100000)) =
    Thrown (TypeError "Invalid URL") /\
  im_response
    (server_immediate demo_parse demo_pathname utf8_decode no_host
       (fun _ => Responded 200 (inr "ok")) []) =
    Some (Thrown (TypeError "Invalid URL")).
Proof.
  destruct (variants_agree 20000 demo_parse demo_pathname utf8_decode no_host
              (initial 100000) (fun _ => Responded 200 (inr "ok")) [])
    as (H & _).
  destruct (H (TypeError "Invalid URL") eq_refl) as (H1 & H2 & _).
  split; [exact H1 | exact H2].
Defined.

Lemma stagger_goes_by_queue_witness :
  exists s2,
    step 20000 3000 demo_parse demo_pathname utf8_decode
          (FetchSettles 0 (Responded 200 (inr "ok")))
      (enqueue 20000 [JStr "Y"] (build_payload doc_single)
         (state_of (run 20000 3000 demo_parse demo_pathname utf8_decode
               [Http (post_push doc_single)]
                      (initial 100000)))) = Some s2 /\
    active s2 = [AwaitStagger (100000 + 3000)].
Proof.
  destruct (stagger_goes_by_queue 20000 3000 demo_parse demo_pathname utf8_decode
              (state_of (run 20000 3000 demo_parse demo_pathname utf8_decode
                    [Http (post_push doc_single)]
                           (initial 100000)))
              {| token := JStr "X"; payload := build_payload doc_single |}
              (JStr "Y") (build_payload doc_single) (Responded 200 (inr "ok")))
    as [(s2 & H1 & H2 & _) _].
  - exists 100000, [Http (post_push doc_single)]. vm_compute. reflexivity.
  - vm_compute. reflexivity.
  - reflexivity.
  - vm_compute. reflexivity.
  - lia.
  - lia.
  - exists s2. split; [exact H1 | exact H2].
Defined.

(** X21. The answer to a POST to /push depends on the request alone: not
    on the configured delays, not on what is queued, not on whether the
    worker is busy, idle or stuck, and it is given at the clock reading at
    which the request is handled. *)
Theorem push_answer_ignores_worker
    (min min' : Z) (parse : string -> exn + json)
    (path : string -> string -> exn + string) (decode : string -> string)
    (req : request) (s s' : state) :
  method req = "POST" -> pathname path req = inr "/push" ->
  fst (server min parse path decode req s) =
    fst (server min' parse path decode req s') /\
  now (snd (server min parse path decode req s)) = now s.
Proof.
  intros Hm Hp. unfold server. rewrite Hm, Hp. cbn [String.eqb andb].
  replace (String.eqb "POST" "GET") with false by reflexivity.
  replace (String.eqb "POST" "POST") with true by reflexivity.
  replace (String.eqb "/push" "/push") with true by reflexivity.
  cbn [andb]. cbv zeta.
  destruct (settled (parseBody parse decode req)) as [err | body];
    [split; reflexivity |].
  unfold push_route.
  destruct (outcome (get_prop body "to")) as [err | to]; [split; reflexivity |].
  destruct (List.length (normalizeTokens to) =? 0)%nat; [split; reflexivity |].
  destruct (_ || _); [split; reflexivity |].
  cbn [fst snd]. split; [reflexivity |].
  unfold enqueue, processQueue. cbn.
  destruct (sending s); [reflexivity |].
  unfold loop. cbn. destruct (queue s ++ _) as [| x q]; [reflexivity |].
  cbn. destruct (_ >? 0); reflexivity.
Qed.

Lemma push_answer_witness :
  fst (server 20000 demo_parse demo_pathname utf8_decode (post_push doc_single)
         (initial 100000)) =
  fst (server 0 demo_parse demo_pathname utf8_decode (post_push doc_single)
         (state_of (run 20000 3000 demo_parse demo_pathname utf8_decode number_first
                      (initial 100000)))).
Proof.
  apply (push_answer_ignores_worker 20000 0 demo_parse demo_pathname utf8_decode
           (post_push doc_single));
    reflexivity.
Defined.
